(** * The Landmark photo pipeline ([src/landmark_pipeline.py])

    A shallow embedding of the pipeline's helper functions and of [main],
    followed by the properties of the ordering policy, the caption
    resolver, the image transforms and the error paths.

    Modelling conventions.
    - A Python [str] is a Rocq [string]; the case and whitespace
      operations ([lower], [title], [strip]) act on the ASCII range, which
      is where file names of the pipeline live.
    - A PIL image is the record of what the pipeline observes of it: its
      size, its mode and its EXIF orientation.
    - Python floats are IEEE binary64 and are computed with [SpecFloat] at
      precision 53; [int(...)] truncates toward zero.
    - Exceptions and file-system effects of [main] are threaded through a
      state-and-error monad. *)

From Stdlib Require Import ZArith Lia Bool Ascii String.
From Stdlib Require Import Floats.SpecFloat.
From stdpp Require Import base list strings gmap sorting pretty.

Local Open Scope Z_scope.

(** ** Python string primitives *)

Module PyStr.

Definition code (c : ascii) : nat := nat_of_ascii c.

Definition is_upper (c : ascii) : bool :=
  Nat.leb 65 (code c) && Nat.leb (code c) 90.

Definition is_lower (c : ascii) : bool :=
  Nat.leb 97 (code c) && Nat.leb (code c) 122.

(** [str.isspace] on the ASCII range: TAB..CR, FS..US and the blank. *)
Definition is_space (c : ascii) : bool :=
  (Nat.leb 9 (code c) && Nat.leb (code c) 13)
  || (Nat.leb 28 (code c) && Nat.leb (code c) 32).

Definition is_cased (c : ascii) : bool := is_upper c || is_lower c.

Definition lower_char (c : ascii) : ascii :=
  if is_upper c then ascii_of_nat (code c + 32) else c.

Definition upper_char (c : ascii) : ascii :=
  if is_lower c then ascii_of_nat (code c - 32) else c.

(** [s.lower()] *)
Fixpoint lower (s : string) : string :=
  match s with
  | EmptyString => EmptyString
  | String c s' => String (lower_char c) (lower s')
  end.

(** [s.startswith(p)] *)
Definition startswith (p s : string) : bool := String.prefix p s.

(** [k in n]: [k] occurs in [n] as a contiguous substring. *)
Fixpoint contains (k n : string) : bool :=
  String.prefix k n
  || match n with
     | EmptyString => false
     | String _ n' => contains k n'
     end.

(** [s.endswith(suf)] *)
Fixpoint endswith (suf s : string) : bool :=
  String.eqb suf s
  || match s with
     | EmptyString => false
     | String _ s' => endswith suf s'
     end.

(** [s.endswith((e1, e2, ...))] with a tuple of suffixes. *)
Definition endswith_any (sufs : list string) (s : string) : bool :=
  existsb (fun suf => endswith suf s) sufs.

Fixpoint lstrip (s : string) : string :=
  match s with
  | EmptyString => EmptyString
  | String c s' => if is_space c then lstrip s' else s
  end.

Fixpoint rstrip (s : string) : string :=
  match s with
  | EmptyString => EmptyString
  | String c s' =>
      match rstrip s' with
      | EmptyString => if is_space c then EmptyString else String c EmptyString
      | r => String c r
      end
  end.

(** [s.strip()] *)
Definition strip (s : string) : string := rstrip (lstrip s).

(** [s.title()]: a cased character is upper-cased when the character
    before it is not cased, and lower-cased otherwise. *)
Fixpoint title_from (previous_is_cased : bool) (s : string) : string :=
  match s with
  | EmptyString => EmptyString
  | String c s' =>
      String (if previous_is_cased then lower_char c else upper_char c)
             (title_from (is_cased c) s')
  end.

Definition title (s : string) : string := title_from false s.

(** [s.replace(old, new)] for single characters. *)
Fixpoint replace_char (old new : ascii) (s : string) : string :=
  match s with
  | EmptyString => EmptyString
  | String c s' =>
      String (if Ascii.eqb c old then new else c) (replace_char old new s')
  end.

(** A string is truthy when it is not empty. *)
Definition truthy (s : string) : bool := negb (String.eqb s EmptyString).

End PyStr.

(** ** [os.path] on POSIX paths *)

Module PyPath.

Definition sep : ascii := "/"%char.
Definition extsep : ascii := "."%char.

Fixpoint has_char (x : ascii) (s : string) : bool :=
  match s with
  | EmptyString => false
  | String c s' => Ascii.eqb c x || has_char x s'
  end.

(** [os.path.basename(p)]: what follows the last separator. *)
Fixpoint basename (p : string) : string :=
  match p with
  | EmptyString => EmptyString
  | String c p' =>
      if has_char sep p' then basename p'
      else if Ascii.eqb c sep then p' else p
  end.

(** What comes before the base name, the separator included: the path is
    [dir_part p] followed by [basename p]. *)
Fixpoint dir_part (p : string) : string :=
  match p with
  | EmptyString => EmptyString
  | String c p' =>
      if has_char sep p' then String c (dir_part p')
      else if Ascii.eqb c sep then String c EmptyString else EmptyString
  end.

(** Split at the last [extsep]: [Some (before, after)]. *)
Fixpoint rsplit_dot (s : string) : option (string * string) :=
  match s with
  | EmptyString => None
  | String c s' =>
      match rsplit_dot s' with
      | Some (b, a) => Some (String c b, a)
      | None => if Ascii.eqb c extsep then Some (EmptyString, s') else None
      end
  end.

Fixpoint all_dots (s : string) : bool :=
  match s with
  | EmptyString => true
  | String c s' => Ascii.eqb c extsep && all_dots s'
  end.

(** [os.path.splitext(p)] for a path without separator, which is how the
    pipeline calls it (always on a base name): the extension starts at
    the last dot, unless only dots come before it. *)
Definition splitext (p : string) : string * string :=
  match rsplit_dot p with
  | Some (b, a) =>
      if all_dots b then (p, EmptyString) else (b, String extsep a)
  | None => (p, EmptyString)
  end.

(** [os.path.join(a, b)] *)
Definition join (a b : string) : string :=
  if PyStr.startswith (String sep EmptyString) b then b
  else if String.eqb a EmptyString
          || PyStr.endswith (String sep EmptyString) a
       then a +:+ b
       else a +:+ String sep b.

End PyPath.

(** ** Stable sorting, as [list.sort(key=...)] does it

    Python's sort is stable, and a stable sort into ascending keys has one
    result only; insertion from the right, placing an element before the
    first element whose key is not smaller, computes it. *)

Section PySort.
Context {A K : Type} (key : A → K) (leb : K → K → bool).

Fixpoint insert_by (x : A) (l : list A) : list A :=
  match l with
  | [] => [x]
  | y :: l' => if leb (key x) (key y) then x :: l else y :: insert_by x l'
  end.

Definition sort_by (l : list A) : list A := foldr insert_by [] l.
End PySort.

(** ** Collecting and ranking the images *)

Definition IMG_EXTS : list string := [".jpg"; ".jpeg"; ".png"; ".webp"].

(** The test of [collect_images] on one file name. *)
Definition is_image_name (f : string) : bool :=
  PyStr.endswith_any IMG_EXTS (PyStr.lower f) && negb (PyStr.startswith "._" f).

(** [collect_images(root)], on what [os.walk(root)] yields: the directory
    paths with the names of their files. *)
Definition collect_images (walk : list (string * list string)) : list string :=
  sort_by id String.leb
    (walk ≫= λ '(d, files),
       PyPath.join d <$> filter (λ f, is_image_name f = true) files).

(** The keyword table of [keyword_rank]. *)
Definition order : list (string * Z) :=
  [ ("exterior", 0); ("front", 1); ("aerial", 1); ("living", 2);
    ("fireplace", 3); ("kitchen", 4); ("dining", 5);
    ("bedroom", 6); ("bath", 7); ("deck", 8); ("dock", 9);
    ("lake", 10); ("twilight", 11); ("local", 12) ].

(** One turn of the loop of [keyword_rank] over a table. *)
Definition rank_step (n : string) (rank : Z) (entry : string * Z) : Z :=
  if PyStr.contains entry.1 n then Z.min rank entry.2 else rank.

Definition rank_in (table : list (string * Z)) (n : string) (rank : Z) : Z :=
  fold_left (rank_step n) table rank.

Definition keyword_rank (name : string) : Z :=
  rank_in order (PyStr.lower name) 50.

(** The key of the sort in [main]: [(keyword_rank(x), os.path.basename(x))],
    compared as Python compares tuples. *)
Definition sort_key (x : string) : Z * string :=
  (keyword_rank x, PyPath.basename x).

Definition key_leb (a b : Z * string) : bool :=
  (a.1 <? b.1) || ((a.1 =? b.1) && String.leb a.2 b.2).

Definition key_le (a b : Z * string) : Prop :=
  a.1 < b.1 ∨ (a.1 = b.1 ∧ String.le a.2 b.2).

(** The [else] branch of [main]: no usable order file. *)
Definition default_order (srcs : list string) : list string :=
  sort_by sort_key key_leb srcs.

(** The names read from the order file: stripped lines that are not blank. *)
Definition read_names (lines : list string) : list string :=
  filter (λ ln, PyStr.truthy ln = true) (PyStr.strip <$> lines).

(** The images listed by the order file, in listed order. *)
Definition listed (names srcs : list string) : list string :=
  names ≫= λ name, filter (λ s, PyPath.basename s = name) srcs.

(** The [if] branch of [main]: an order file is in force. *)
Definition explicit_order (names srcs : list string) : list string :=
  let ordered := listed names srcs in
  let remaining := filter (λ s, s ∉ ordered) srcs in
  ordered ++ sort_by sort_key key_leb remaining.

(** [x] stands somewhere before [y] in [l]. *)
Definition before {A} (x y : A) (l : list A) : Prop :=
  ∃ l1 l2 l3, l = l1 ++ x :: l2 ++ y :: l3.

(** ** Captions *)

(** [re.sub(r"[_\-]+", " ", s)]: every maximal run of underscores and
    hyphens becomes one blank. *)
Definition is_sep_char (c : ascii) : bool :=
  Ascii.eqb c "_"%char || Ascii.eqb c "-"%char.

Fixpoint sub_runs (in_run : bool) (s : string) : string :=
  match s with
  | EmptyString => EmptyString
  | String c s' =>
      if is_sep_char c
      then (if in_run then sub_runs true s' else String " "%char (sub_runs true s'))
      else String c (sub_runs false s')
  end.

(** [re.sub(r"[_\-]+", " ", base).strip().title()], the expression shared
    by [slug_to_caption] and the room label of [main]. *)
Definition humanize (base : string) : string :=
  PyStr.title (PyStr.strip (sub_runs false base)).

Definition slug_to_caption (name : string) : string :=
  let base := (PyPath.splitext (PyPath.basename name)).1 in
  let cap := humanize base in
  if negb (PyStr.endswith "." cap) then cap +:+ "." else cap.

(** A row of [csv.DictReader]: the values of the columns [filename] and
    [caption] as [row.get(column, "")] returns them. A column the header
    lacks reads as the empty string; a row shorter than the header reads
    as [None] in its missing columns. *)
Definition csv_row : Type := option string * option string.

(** The body of the loop of [load_captions_csv], on one row;
    [None.strip()] raises. *)
Definition caption_step (caps : gmap string string) (row : csv_row)
  : option (gmap string string) :=
  fn ← PyStr.strip <$> row.1;
  tx ← PyStr.strip <$> row.2;
  Some (if PyStr.truthy fn && PyStr.truthy tx then <[fn:=tx]> caps else caps).

Fixpoint load_rows (caps : gmap string string) (rows : list csv_row)
  : option (gmap string string) :=
  match rows with
  | [] => Some caps
  | row :: rows' => caps' ← caption_step caps row; load_rows caps' rows'
  end.

(** The loop of [load_captions_csv] over the rows that [csv.DictReader]
    yields, from the empty dictionary; [None] is the [AttributeError] of a
    row without a value. Opening, decoding and parsing the file come before
    it and raise on their own: [load_captions_csv_file] below has both. *)
Definition load_captions_csv (rows : list csv_row) : option (gmap string string) :=
  load_rows ∅ rows.

(** [caps.get(base, slug_to_caption(base))] *)
Definition resolve_caption (caps : gmap string string) (base : string) : string :=
  default (slug_to_caption base) (caps !! base).

(** ** Python floats *)

Module PyFloat.

Definition prec : Z := 53.
Definition emax : Z := 1024.

(** [float(z)] *)
Definition of_int (z : Z) : spec_float := binary_normalize prec emax z 0 false.

Definition mul : spec_float → spec_float → spec_float := SFmul prec emax.
Definition div : spec_float → spec_float → spec_float := SFdiv prec emax.

(** The decimal literal [num/den], correctly rounded. *)
Definition literal (num den : Z) : spec_float := div (of_int num) (of_int den).

(** [int(f)]: truncation toward zero; infinities and NaN raise. *)
Definition to_int (f : spec_float) : option Z :=
  match f with
  | S754_zero _ => Some 0
  | S754_finite s m e =>
      Some (cond_Zopp s (if 0 <=? e then Z.pos m * 2 ^ e
                         else Z.pos m / 2 ^ (- e)))
  | _ => None
  end.

(** [int(a * f)] for an integer [a] and a float [f]. *)
Definition int_mul (a : Z) (f : spec_float) : option Z := to_int (mul (of_int a) f).

(** [int(a / b)] for integers [a] and [b]; division by zero raises. The
    quotient of two integers is correctly rounded; below [2^53] the
    operands convert exactly, so it is the float quotient of the two. *)
Definition int_truediv (a b : Z) : option Z :=
  if b =? 0 then None else to_int (div (of_int a) (of_int b)).

End PyFloat.

(** ** Images *)

(** What the pipeline observes of a [PIL.Image]: its size, its mode and
    the EXIF orientation tag (0 when the tag is absent). *)
Record image : Type := Image {
  width : Z;
  height : Z;
  mode : string;
  orientation : Z
}.

Definition size (im : image) : Z * Z := (width im, height im).

(** [im.convert(m)] keeps the size. *)
Definition convert (m : string) (im : image) : image :=
  {| width := width im; height := height im; mode := m;
     orientation := orientation im |}.

(** [im.resize((w, h), Image.LANCZOS)]: an image of the requested size;
    PIL raises [ValueError] unless both sides are at least one pixel. *)
Definition resize (im : image) (sz : Z * Z) : option image :=
  if (1 <=? sz.1) && (1 <=? sz.2)
  then Some {| width := sz.1; height := sz.2; mode := mode im;
               orientation := orientation im |}
  else None.

(** [base.alpha_composite(lg, dest)] paints onto [base] in place; its size
    and mode stay. *)
Definition alpha_composite (base lg : image) (dest : Z * Z) : image := base.

(** [lg.putalpha(a)] for a band [a] of the size of [lg]. *)
Definition putalpha (lg : image) : image := lg.

(** [ImageOps.exif_transpose(im)]: orientations 5 to 8 exchange the
    sides, 2 to 4 keep them; a transposed image loses the tag. *)
Definition exif_transpose (im : image) : image :=
  if (5 <=? orientation im) && (orientation im <=? 8)
  then {| width := height im; height := width im; mode := mode im; orientation := 0 |}
  else if (2 <=? orientation im) && (orientation im <=? 4)
  then {| width := width im; height := height im; mode := mode im; orientation := 0 |}
  else im.

(** The logo as pasted by [apply_logo_watermark]: the scaled logo and the
    corner it is pasted at. *)
Definition place_logo (base lg : image) : option (image * (Z * Z)) :=
  target_w ← PyFloat.int_mul (width base) (PyFloat.literal 10 100);
  if width lg =? 0 then None else
  let scale := PyFloat.div (PyFloat.of_int target_w) (PyFloat.of_int (width lg)) in
  target_h ← PyFloat.int_mul (height lg) scale;
  lg ← resize lg (target_w, target_h);
  let lg := putalpha lg in
  mx ← PyFloat.int_mul (width base) (PyFloat.literal 2 100);
  my ← PyFloat.int_mul (height base) (PyFloat.literal 2 100);
  let x := width base - width lg - mx in
  let y := height base - height lg - my in
  Some (lg, (x, y)).

Definition apply_logo_watermark (im logo : image) (opacity : spec_float)
  : option image :=
  let base := convert "RGBA" im in
  let lg := convert "RGBA" logo in
  '(lg, dest) ← place_logo base lg;
  let base := alpha_composite base lg dest in
  Some (convert "RGB" base).

(** The size [resize_for_web] asks for when the image is too large. *)
Definition web_size (w h max_side : Z) : option (Z * Z) :=
  if h <? w
  then new_h ← PyFloat.int_truediv (h * max_side) w; Some (max_side, new_h)
  else new_w ← PyFloat.int_truediv (w * max_side) h; Some (new_w, max_side).

Definition resize_for_web (im : image) (max_side : Z) : option image :=
  let '(w, h) := size im in
  if Z.max w h <=? max_side then Some im
  else sz ← web_size w h max_side; resize im sz.

Definition photo (w h : Z) : image :=
  {| width := w; height := h; mode := "RGB"; orientation := 0 |}.

(** ** The run: files, exceptions and effects *)

Inductive file : Type :=
| FImage (im : image) (quality : option Z)   (* a decodable image *)
| FText (lines : list string)                 (* the order file *)
| FCsv (rows : list csv_row)                  (* the caption table *)
| FHtml (content : string)
| FPdf (data : list (list string)) (page_header page_footer : string)
| FOther.

Record state : Type := State {
  files : gmap string file;     (* regular files, by path *)
  dirs : gset string;           (* directories *)
  stdout : list string          (* what [print] wrote, oldest first *)
}.

(** How a run ends early: [SystemExit(msg)], or an exception nobody
    catches. *)
Inductive exn : Type :=
| SystemExit (msg : string)
| Uncaught (name : string).

(** What the pipeline takes from outside its own code: the archive reader,
    the directory walk, and the codecs of PIL and [base64].

    [read_zip path] is what [zipfile] makes of the archive: [None] when
    [ZipFile(path)] raises (no such file, no central directory), else the
    files [extractall] writes, in the order it writes them and named
    relative to the target directory, and whether it then raises on a member
    it cannot extract (a bad checksum, say; what it left of that member is
    one of the files written). *)
Record Env : Type := {
  read_zip : string → option (list (string * file) * bool);
  os_walk : string → gmap string file → list (string * list string);
  thumbnail : image → Z * Z → option image;
  jpeg_bytes : image → Z → option string;
  b64encode : string → string;
  today : string
}.

Definition M (A : Type) : Type := state → (exn + A) * state.

Definition ret {A} (a : A) : M A := λ st, (inr a, st).

Definition bind {A B} (c : M A) (k : A → M B) : M B :=
  λ st, match c st with
        | (inl e, st') => (inl e, st')
        | (inr a, st') => k a st'
        end.

Definition raise {A} (e : exn) : M A := λ st, (inl e, st).
Definition gets {A} (f : state → A) : M A := λ st, (inr (f st), st).
Definition modify (f : state → state) : M unit := λ st, (inr tt, f st).

(** An operation that raises [name] when it has no result. *)
Definition lift {A} (name : string) (o : option A) : M A :=
  match o with Some a => ret a | None => raise (Uncaught name) end.

Notation "'let*' x ':=' c 'in' k" := (bind c (λ x, k))
  (at level 10, x name, c at level 100, k at level 200).
Notation "'run' c 'in' k" := (bind c (λ _, k))
  (at level 10, c at level 100, k at level 200).

(** The exit status the interpreter reports. *)
Definition exit_status (r : exn + unit) : Z :=
  match r with inr _ => 0 | inl _ => 1 end.

(** The message [SystemExit] leaves on the error stream. *)
Definition exit_message (r : exn + unit) : option string :=
  match r with inl (SystemExit msg) => Some msg | _ => None end.

Definition path_exists (st : state) (p : string) : bool :=
  bool_decide (is_Some (files st !! p) ∨ p ∈ dirs st).

(** The proper prefixes of [p] that end right before a separator. *)
Fixpoint ancestors_from (seen p : string) : list string :=
  match p with
  | EmptyString => []
  | String c p' =>
      (if Ascii.eqb c PyPath.sep && PyStr.truthy seen then [seen] else [])
      ++ ancestors_from (seen +:+ String c EmptyString) p'
  end.

Definition ancestors (p : string) : list string := ancestors_from "" p.

Definition add_dirs (ds : list string) (st : state) : state :=
  {| files := files st; dirs := list_to_set ds ∪ dirs st; stdout := stdout st |}.

Definition write_file (p : string) (f : file) (st : state) : state :=
  {| files := <[p:=f]> (files st); dirs := dirs st; stdout := stdout st |}.

(** [os.makedirs(path, exist_ok=True)] *)
Definition ensure_dir (path : string) : M string :=
  let* taken := gets (λ st, bool_decide (is_Some (files st !! path))) in
  if (taken : bool) then raise (Uncaught "FileExistsError")
  else run modify (add_dirs (path :: ancestors path)) in ret path.

Definition extract_entry (out_dir : string) (entry : string * file) (st : state) : state :=
  let p := out_dir +:+ "/" +:+ entry.1 in
  write_file p entry.2 (add_dirs (ancestors p) st).

Section Run.
Variable env : Env.

(** [ZipFile(zip_path)] raises before anything is written; [extractall]
    writes the members one by one, each with the directories above it, and
    what it wrote stays when a later member makes it raise. *)
Definition extract_zip (zip_path out_dir : string) : M string :=
  let* archive := lift "BadZipFile" (read_zip env zip_path) in
  run modify (λ st, foldl (λ st e, extract_entry out_dir e st) st archive.1) in
  if (archive.2 : bool) then raise (Uncaught "BadZipFile") else ret out_dir.

(** [Image.open(path)] *)
Definition image_open (path : string) : M image :=
  let* f := gets (λ st, files st !! path) in
  match f with
  | Some (FImage im _) => ret im
  | Some _ => raise (Uncaught "UnidentifiedImageError")
  | None => raise (Uncaught "FileNotFoundError")
  end.

(** [im.save(path, quality=q)], to a destination that can be written. *)
Definition save (im : image) (path : string) (q : Z) : M unit :=
  modify (write_file path (FImage im (Some q))).

(** The lines of a text file, as iterating over [open(path)] gives them. *)
Definition read_lines (path : string) : M (list string) :=
  let* f := gets (λ st, files st !! path) in
  match f with
  | Some (FText lines) => ret lines
  | _ => raise (Uncaught "OSError")
  end.

(** The rows [csv.DictReader] yields from [open(path, newline="",
    encoding="utf-8")]. A file that cannot be opened, decoded or parsed as a
    table raises ([OSError] stands for [UnicodeDecodeError] and [csv.Error]
    as well). *)
Definition read_csv (path : string) : M (list csv_row) :=
  let* f := gets (λ st, files st !! path) in
  match f with
  | Some (FCsv rows) => ret rows
  | _ => raise (Uncaught "OSError")
  end.

(** [load_captions_csv(path)], from the path: reading, then the loop. *)
Definition load_captions_csv_file (path : string) : M (gmap string string) :=
  let* rows := read_csv path in
  lift "AttributeError" (load_captions_csv rows).

(** [embed_b64(path, width)]: every exception inside the [try] gives the
    empty string. *)
Definition embed_b64 (st : state) (path : string) (w : Z) : string :=
  match files st !! path with
  | Some (FImage im _) =>
      match thumbnail env im (w, w) with
      | Some im' =>
          match jpeg_bytes env im' 80 with
          | Some buf => b64encode env buf
          | None => ""
          end
      | None => ""
      end
  | _ => ""
  end.
End Run.

(** ** The documents *)

Definition BRAND_PRIMARY : string := "#8B1E24".
Definition BRAND_ACCENT : string := "#2E4A3B".
Definition BRAND_GREY : string := "#4B5563".

Record Brand : Type := {
  property : string;
  name : string;
  email : string;
  phone : string;
  site : string
}.

(** A row of the documents: index, thumbnail path, room label, caption. *)
Definition row : Type := Z * string * string * string.

Definition dq : string := String (ascii_of_nat 34) EmptyString.
Definition nl : string := String (ascii_of_nat 10) EmptyString.

(** [str(i)] *)
Definition str (i : Z) : string := pretty i.

(** [f"{i:02d}"] *)
Definition pad2 (i : Z) : string :=
  if (0 <=? i) && (i <? 10) then "0" +:+ pretty i else pretty i.

(** The three image tags; each is empty when nothing was embedded. *)
Definition thumb_tag (data_uri : string) : string :=
  if PyStr.truthy data_uri
  then "<img class=" +:+ dq +:+ "thumb" +:+ dq +:+ " src=" +:+ dq
       +:+ "data:image/jpeg;base64," +:+ data_uri +:+ dq +:+ "/>"
  else "".

Definition list_thumb_tag (data_uri : string) : string :=
  if PyStr.truthy data_uri
  then "<img src=" +:+ dq +:+ "data:image/jpeg;base64," +:+ data_uri +:+ dq
       +:+ " style=" +:+ dq
       +:+ "width:140px;height:auto;border:1px solid #e5e7eb" +:+ dq +:+ "/>"
  else "".

Definition logo_tag (logo64 : string) : string :=
  if PyStr.truthy logo64
  then "<img src=" +:+ dq +:+ "data:image/jpeg;base64," +:+ logo64 +:+ dq
       +:+ " height=" +:+ dq +:+ "40" +:+ dq +:+ "/>"
  else "".

Definition contact_line (brand : Brand) : string :=
  " • " +:+ email brand +:+ " • " +:+ phone brand +:+ " • " +:+ site brand.

Section Documents.
Variable env : Env.

(** One turn of the loop of [make_html]. *)
Definition html_row (st : state) (r : row) : string :=
  let '(i, thumb, room, caption) := r in
  let data_uri := embed_b64 env st thumb 150 in
  let img_tag := thumb_tag data_uri in
  "<tr><td>" +:+ str i +:+ "</td><td>" +:+ img_tag +:+ "</td><td>" +:+ room
  +:+ "</td><td>" +:+ caption +:+ "</td></tr>".

Definition html_header (brand : Brand) (logo64 : string) : string :=
  String.concat nl
    [ "";
      "<html><head><meta charset='utf-8'><title>" +:+ property brand
        +:+ " – Photo Order</title>";
      "<style>";
      "body{font-family:Arial,sans-serif;margin:0}";
      ".header{background:#fff;border-bottom:2px solid " +:+ BRAND_PRIMARY
        +:+ ";padding:12px 20px;display:flex;align-items:center;gap:16px}";
      ".title{font-size:18px;font-weight:700;color:#111827}";
      ".sub{font-size:12px;color:" +:+ BRAND_GREY +:+ "}";
      "table{border-collapse:collapse;width:100%}";
      "th,td{border:1px solid #e5e7eb;padding:8px;text-align:left;vertical-align:middle}";
      "th{background:" +:+ BRAND_ACCENT +:+ ";color:#fff}";
      "tr:nth-child(even) td{background:#f9fafb}";
      ".thumb{width:150px;height:auto}";
      ".footer{color:" +:+ BRAND_GREY
        +:+ ";font-size:12px;padding:12px 20px;border-top:1px solid #e5e7eb}";
      ".brand{color:" +:+ BRAND_PRIMARY +:+ ";font-weight:700}";
      "</style></head><body>";
      "<div class='header'>";
      "  " +:+ logo_tag logo64;
      "  <div><div class='title'>" +:+ name brand +:+ " — " +:+ property brand
        +:+ "</div>";
      "  <div class='sub'>" +:+ today env +:+ "</div></div>";
      "</div>";
      "<table><tr><th>#</th><th>Thumbnail</th><th>Room/Area</th><th>Caption</th></tr>";
      "" ].

Definition html_footer (brand : Brand) : string :=
  String.concat nl
    [ "";
      "</table>";
      "<div class='footer'><span class='brand'>" +:+ name brand +:+ "</span>"
        +:+ contact_line brand +:+ "</div>";
      "</body></html>" ].

Definition make_html (html_path : string) (rows : list row) (brand : Brand)
    (logo_path : string) : M unit :=
  let* st := gets id in
  let logo64 := embed_b64 env st logo_path 200 in
  let rows_html := String.concat "" (html_row st <$> rows) in
  modify (write_file html_path
            (FHtml (html_header brand logo64 +:+ rows_html +:+ html_footer brand))).

(** One turn of the loop of [make_list_html]. *)
Definition list_item (st : state) (r : row) : string :=
  let '(i, thumb, room, caption) := r in
  let data_uri := embed_b64 env st thumb 150 in
  let img_tag := list_thumb_tag data_uri in
  "<li><div style='display:flex;gap:10px;align-items:flex-start'><div>"
  +:+ img_tag +:+ "</div><div><strong>" +:+ str i +:+ ". " +:+ room
  +:+ "</strong><br>" +:+ caption +:+ "</div></div></li>".

Definition make_list_html (html_path : string) (rows : list row) (brand : Brand)
    (logo_path : string) : M unit :=
  let* st := gets id in
  let logo64 := embed_b64 env st logo_path 150 in   (* computed, never used *)
  let body :=
    [ "<h2>" +:+ name brand +:+ " — " +:+ property brand +:+ "</h2><ol>" ]
    ++ (list_item st <$> rows)
    ++ [ "</ol>";
         "<hr><div style='font-size:12px;color:" +:+ BRAND_GREY +:+ "'>"
           +:+ name brand +:+ contact_line brand +:+ "</div>" ] in
  modify (write_file html_path
            (FHtml ("<html><body>" +:+ String.concat "" body +:+ "</body></html>"))).

(** [make_pdf]: the table handed to reportlab, with the texts of the page
    header and footer. A thumbnail that cannot be placed reads "N/A". *)
Definition pdf_row (st : state) (r : row) : list string :=
  let '(i, thumb, room, caption) := r in
  let img := match files st !! thumb with
             | Some (FImage _ _) => thumb
             | _ => "N/A"
             end in
  [str i; img; room; caption].

Definition make_pdf (pdf_path : string) (rows : list row) (brand : Brand)
    (logo_path : string) : M unit :=
  let* st := gets id in
  let data := ["#"; "Thumbnail"; "Room/Area"; "Caption"] :: (pdf_row st <$> rows) in
  modify (write_file pdf_path
            (FPdf data (name brand +:+ " — " +:+ property brand)
                       (name brand +:+ contact_line brand))).
End Documents.

(** ** [main] *)

Record Args : Type := {
  zip : string;
  logo : string;
  property_name : string;
  brand_name : string;
  brand_email : string;
  brand_phone : string;
  brand_site : string;
  outdir : string;
  order_file : option string;
  captions_csv : option string;
  max_web_width : Z
}.

(** [args.opt and os.path.exists(args.opt)] *)
Definition usable (st : state) (opt : option string) : option string :=
  match opt with
  | Some p => if PyStr.truthy p && path_exists st p then Some p else None
  | None => None
  end.

Section Main.
Variable env : Env.

(** The body of the loop over [enumerate(srcs, start=1)]. *)
Definition process_image (logo_im : image) (full_dir web_dir thumbs_dir : string)
    (caps : gmap string string) (max_side : Z) (i : Z) (src : string) : M row :=
  let base := PyPath.basename src in
  let caption := resolve_caption caps base in
  let room := humanize (PyPath.splitext base).1 in
  let* im := image_open src in
  let im := exif_transpose im in
  let* wm := lift "ValueError" (apply_logo_watermark im logo_im (PyFloat.literal 4 10)) in
  let new_name := pad2 i +:+ "_" +:+ base in
  let full_path := PyPath.join full_dir new_name in
  run save wm full_path 95 in
  let* web := lift "ValueError" (resize_for_web wm max_side) in
  run save web (PyPath.join web_dir new_name) 85 in
  let thumb_path := PyPath.join thumbs_dir ("thumb_" +:+ pad2 i +:+ ".jpg") in
  let* t := lift "ValueError" (thumbnail env wm (600, 400)) in
  run save t thumb_path 85 in
  ret (i, thumb_path, room, caption).

Fixpoint process_all (logo_im : image) (full_dir web_dir thumbs_dir : string)
    (caps : gmap string string) (max_side : Z) (i : Z) (srcs : list string)
  : M (list row) :=
  match srcs with
  | [] => ret []
  | src :: srcs' =>
      let* r := process_image logo_im full_dir web_dir thumbs_dir caps max_side i src in
      let* rs := process_all logo_im full_dir web_dir thumbs_dir caps max_side (i + 1) srcs' in
      ret (r :: rs)
  end.

(** The ordering step of [main]. *)
Definition order_images (order_file : option string) (srcs : list string)
  : M (list string) :=
  let* chosen := gets (λ st, usable st order_file) in
  match chosen with
  | Some p =>
      let* lines := read_lines p in
      ret (explicit_order (read_names lines) srcs)
  | None => ret (default_order srcs)
  end.

(** The caption table of [main]. *)
Definition load_captions (captions_csv : option string) : M (gmap string string) :=
  let* chosen := gets (λ st, usable st captions_csv) in
  match chosen with
  | Some p => load_captions_csv_file p
  | None => ret ∅
  end.

(** What [main] does once the images are collected. *)
Definition deliver (args : Args) (work : string) (srcs : list string) : M unit :=
  let brand := {| property := property_name args; name := brand_name args;
                  email := brand_email args; phone := brand_phone args;
                  site := brand_site args |} in
  let* srcs := order_images (order_file args) srcs in
  let* caps := load_captions (captions_csv args) in
  let* logo_im := image_open (logo args) in
  let* full_dir := ensure_dir (PyPath.join work "photos_full_res_watermarked") in
  let* web_dir := ensure_dir (PyPath.join work "photos_web_optimized_watermarked") in
  let* thumbs_dir := ensure_dir (PyPath.join work "thumbnails") in
  let* rows := process_all logo_im full_dir web_dir thumbs_dir caps
                 (max_web_width args) 1 srcs in
  let stem := PyStr.replace_char " " "_" (property brand) in
  let pdf := PyPath.join work (stem +:+ "_Photo_Order_Branded.pdf") in
  let html := PyPath.join work (stem +:+ "_Photo_Order_Branded.html") in
  let lst := PyPath.join work (stem +:+ "_Clean_Captions_List.html") in
  run make_pdf pdf rows brand (logo args) in
  run make_html env html rows brand (logo args) in
  run make_list_html env lst rows brand (logo args) in
  modify (λ st, {| files := files st; dirs := dirs st;
                   stdout := stdout st ++ ["✅ Done. Outputs in: " +:+ work] |}).

(** The start of [main]: the working directory and the extraction. *)
Definition unpack (args : Args) : M (string * string) :=
  let* work := ensure_dir (outdir args) in
  let extract_dir := PyPath.join work "extracted" in
  run extract_zip env (zip args) extract_dir in
  ret (work, extract_dir).

Definition main (args : Args) : M unit :=
  let* we := unpack args in
  let* srcs := gets (λ st, collect_images (os_walk env we.2 (files st))) in
  match srcs with
  | [] => raise (SystemExit "No images found in ZIP")
  | _ => deliver args we.1 srcs
  end.
End Main.

(** ** A sample run, and what the statements need *)


Definition sample_env : Env := {|
  read_zip zip_path :=
    if String.eqb zip_path "in/photos.zip"
    then Some ([ ("Kitchen.jpg", FImage (photo 4000 3000) None);
                 ("Exterior_Front.jpg", FImage (photo 6000 4000) None);
                 ("notes.txt", FOther) ], false)
    else if String.eqb zip_path "in/empty.zip"
    then Some ([ ("notes.txt", FOther) ], false)
    else if String.eqb zip_path "in/damaged.zip"
    then Some ([ ("Kitchen.jpg", FImage (photo 4000 3000) None) ], true)
    else None;
  os_walk root fs :=
    [ (root, PyPath.basename <$>
               filter (λ p, PyStr.startswith (root +:+ "/") p = true)
                 (map_to_list fs).*1) ];
  thumbnail im box :=
    if (box.1 <? width im) || (box.2 <? height im)
    then resize im (Z.min box.1 (width im), Z.min box.2 (height im))
    else Some im;
  jpeg_bytes im q := if String.eqb (mode im) "RGB" then Some "JFIF" else None;
  b64encode buf := "SkZJRg==";
  today := "January 01, 2025"
|}.

Definition sample_args (zip_path : string) : Args := {|
  zip := zip_path;
  logo := "in/logo.png";
  property_name := "The Landmark";
  brand_name := "Red Canoe Lodging";
  brand_email := "info@redcanoelodging.com";
  brand_phone := "715-351-9687";
  brand_site := "redcanoelodging.com";
  outdir := "out";
  order_file := None;
  captions_csv := None;
  max_web_width := 2560
|}.

Definition sample_state : state := {|
  files := {[ "in/logo.png" :=
                FImage {| width := 800; height := 400; mode := "RGBA"; orientation := 0 |} None ]};
  dirs := {[ "in" ]};
  stdout := []
|}.

Definition without_order_file (args : Args) : Args := {|
  zip := zip args; logo := logo args; property_name := property_name args;
  brand_name := brand_name args; brand_email := brand_email args;
  brand_phone := brand_phone args; brand_site := brand_site args;
  outdir := outdir args; order_file := None;
  captions_csv := captions_csv args; max_web_width := max_web_width args
|}.

Definition without_captions_csv (args : Args) : Args := {|
  zip := zip args; logo := logo args; property_name := property_name args;
  brand_name := brand_name args; brand_email := brand_email args;
  brand_phone := brand_phone args; brand_site := brand_site args;
  outdir := outdir args; order_file := order_file args;
  captions_csv := None; max_web_width := max_web_width args
|}.

(** The truncated value of [m * 2^e]. *)
Definition trunc_value (m e : Z) : Z :=
  if 0 <=? e then m * 2 ^ e else m / 2 ^ (- e).

(** [s] holds an underscore or a hyphen. *)
Fixpoint has_sep_char (s : string) : bool :=
  match s with
  | EmptyString => false
  | String c s' => is_sep_char c || has_sep_char s'
  end.

(** A computation that never prints, and one that prints [msg] exactly
    when it returns. *)
Definition quiet {A} (c : M A) : Prop :=
  ∀ st r st', c st = (r, st') → stdout st' = stdout st.

Definition says {A} (msg : string) (c : M A) : Prop :=
  ∀ st r st', c st = (r, st') →
    stdout st' = stdout st ++ (if r is inr _ then [msg] else []).

(** The rows the loop of [main] builds for the images [srcs], numbered from
    [i]: a function of the names alone. *)
Fixpoint rows_for (thumbs_dir : string) (caps : gmap string string) (i : Z)
    (srcs : list string) : list row :=
  match srcs with
  | [] => []
  | src :: srcs' =>
      (i, PyPath.join thumbs_dir ("thumb_" +:+ pad2 i +:+ ".jpg"),
       humanize (PyPath.splitext (PyPath.basename src)).1,
       resolve_caption caps (PyPath.basename src))
      :: rows_for thumbs_dir caps (i + 1) srcs'
  end.

(** * Checks on concrete inputs *)

Example basename_nested : PyPath.basename "out/extracted/A/Kitchen.jpg" = "Kitchen.jpg".
Proof. reflexivity. Qed.

Example splitext_plain : PyPath.splitext "Living Room." = ("Living Room", ".").
Proof. reflexivity. Qed.

Example splitext_hidden : PyPath.splitext ".jpg" = (".jpg", "").
Proof. reflexivity. Qed.

Example title_words : PyStr.title "img 12ab cABIN" = "Img 12Ab Cabin".
Proof. reflexivity. Qed.

Example strip_blanks : PyStr.strip "  a b  " = "a b".
Proof. reflexivity. Qed.

Example rank_kitchen : keyword_rank "Kitchen.jpg" = 4.
Proof. reflexivity. Qed.

Example rank_exterior_front : keyword_rank "Exterior_Front.jpg" = 0.
Proof. reflexivity. Qed.

Example rank_unmatched : keyword_rank "IMG_1234.jpg" = 50.
Proof. reflexivity. Qed.

Example rank_of_path : keyword_rank "out/lakeside/extracted/IMG_1234.jpg" = 10.
Proof. reflexivity. Qed.

Example default_order_tour :
  default_order ["x/Kitchen.jpg"; "x/IMG_2.jpg"; "x/Exterior_Front.jpg"; "x/IMG_1.jpg"]
  = ["x/Exterior_Front.jpg"; "x/Kitchen.jpg"; "x/IMG_1.jpg"; "x/IMG_2.jpg"].
Proof. reflexivity. Qed.

Example explicit_order_listed_first :
  explicit_order ["IMG_2.jpg"; "nowhere.jpg"; "Kitchen.jpg"]
    ["x/Exterior_Front.jpg"; "x/IMG_1.jpg"; "x/IMG_2.jpg"; "x/Kitchen.jpg"]
  = ["x/IMG_2.jpg"; "x/Kitchen.jpg"; "x/Exterior_Front.jpg"; "x/IMG_1.jpg"].
Proof. vm_compute. reflexivity. Qed.

Example collect_images_filters :
  collect_images [("x", ["b.PNG"; "._a.jpg"; "notes.txt"]); ("x/sub", ["a.jpeg"])]
  = ["x/b.PNG"; "x/sub/a.jpeg"].
Proof. vm_compute. reflexivity. Qed.

Example caption_kitchen : slug_to_caption "Kitchen.jpg" = "Kitchen.".
Proof. reflexivity. Qed.

Example caption_exterior_front : slug_to_caption "Exterior_Front.jpg" = "Exterior Front.".
Proof. reflexivity. Qed.

Example caption_runs : slug_to_caption "x/__lake--view_2.JPG" = "Lake View 2.".
Proof. reflexivity. Qed.

Example caption_trailing_dots : slug_to_caption "A.." = "A.".
Proof. reflexivity. Qed.

Example literal_tenth :
  PyFloat.literal 10 100 = S754_finite false 7205759403792794 (-56).
Proof. vm_compute. reflexivity. Qed.

Example int_mul_tenth : PyFloat.int_mul 4000 (PyFloat.literal 10 100) = Some 400.
Proof. vm_compute. reflexivity. Qed.

Example int_truediv_web : PyFloat.int_truediv (3000 * 2560) 5000 = Some 1536.
Proof. vm_compute. reflexivity. Qed.

(** Two roundings can lose the last unit: [49 * (1 / 49)] is below one. *)
Example int_mul_inexact :
  PyFloat.to_int (PyFloat.mul (PyFloat.of_int 49) (PyFloat.div (PyFloat.of_int 1) (PyFloat.of_int 49)))
  = Some 0.
Proof. vm_compute. reflexivity. Qed.

Example web_5000_3000 :
  size <$> resize_for_web (photo 5000 3000) 2560 = Some (2560, 1536).
Proof. vm_compute. reflexivity. Qed.

Example web_2000_1000 :
  resize_for_web (photo 2000 1000) 2560 = Some (photo 2000 1000).
Proof. vm_compute. reflexivity. Qed.

Example web_portrait :
  size <$> resize_for_web (photo 3000 4000) 2560 = Some (1920, 2560).
Proof. vm_compute. reflexivity. Qed.

Example web_sliver : resize_for_web (photo 5000 1) 2560 = None.
Proof. vm_compute. reflexivity. Qed.

Example watermark_photo :
  apply_logo_watermark (photo 4000 3000)
    {| width := 800; height := 400; mode := "RGBA"; orientation := 0 |}
    (PyFloat.literal 4 10)
  = Some (photo 4000 3000).
Proof. vm_compute. reflexivity. Qed.

Example watermark_corner :
  place_logo (photo 4000 3000)
    {| width := 800; height := 400; mode := "RGBA"; orientation := 0 |}
  = Some ({| width := 400; height := 200; mode := "RGBA"; orientation := 0 |},
          (3520, 2740)).
Proof. vm_compute. reflexivity. Qed.

Example watermark_narrow_base :
  apply_logo_watermark (photo 9 9) (photo 800 400) (PyFloat.literal 4 10) = None.
Proof. vm_compute. reflexivity. Qed.

Example sample_run_ok :
  let '(r, st) := main sample_env (sample_args "in/photos.zip") sample_state in
  r = inr tt
  ∧ files st !! "out/photos_full_res_watermarked/01_Exterior_Front.jpg"
    = Some (FImage (photo 6000 4000) (Some 95))
  ∧ files st !! "out/photos_web_optimized_watermarked/01_Exterior_Front.jpg"
    = Some (FImage (photo 2560 1706) (Some 85))
  ∧ files st !! "out/photos_full_res_watermarked/02_Kitchen.jpg"
    = Some (FImage (photo 4000 3000) (Some 95))
  ∧ stdout st = ["✅ Done. Outputs in: out"].
Proof. vm_compute. repeat split; reflexivity. Qed.

(** A member that cannot be extracted ends the run; what was extracted
    before it is on disk. *)
Example damaged_archive_run :
  let '(r, st) := main sample_env (sample_args "in/damaged.zip") sample_state in
  r = inl (Uncaught "BadZipFile")
  ∧ files st !! "out/extracted/Kitchen.jpg" = Some (FImage (photo 4000 3000) None)
  ∧ stdout st = [].
Proof. vm_compute. repeat split; reflexivity. Qed.

Example dir_part_nested : PyPath.dir_part "out/extracted/A/Kitchen.jpg" = "out/extracted/A/".
Proof. reflexivity. Qed.

Example caption_file_unreadable :
  (load_captions_csv_file "in/logo.png" sample_state).1 = inl (Uncaught "OSError").
Proof. vm_compute. reflexivity. Qed.

(** * Properties *)

(** ** Sorting *)

Section PySortFacts.
Context {A K : Type} (key : A → K) (leb : K → K → bool).
Hypothesis leb_total : ∀ a b, leb a b = false → leb b a = true.
Hypothesis leb_trans : ∀ a b c, leb a b = true → leb b c = true → leb a c = true.

Let le (x y : A) : Prop := leb (key x) (key y) = true.

Lemma insert_by_perm x l : insert_by key leb x l ≡ₚ x :: l.
Proof.
  induction l as [|y l IH]; simpl; [done|].
  destruct (leb (key x) (key y)); [done|].
  rewrite IH. apply Permutation_swap.
Qed.

Lemma sort_by_perm l : sort_by key leb l ≡ₚ l.
Proof.
  induction l as [|x l IH]; simpl; [done|].
  unfold sort_by in *. simpl. by rewrite insert_by_perm, IH.
Qed.

Lemma insert_by_sorted x l :
  StronglySorted le l → StronglySorted le (insert_by key leb x l).
Proof.
  induction 1 as [|y l Hl IH Hy]; simpl.
  - repeat constructor.
  - destruct (leb (key x) (key y)) eqn:Hxy.
    + constructor; [by constructor|].
      constructor; [done|].
      eapply Forall_impl; [exact Hy|]. intros z Hz. unfold le in *. eauto.
    + constructor; [done|].
      rewrite insert_by_perm. constructor; [|done].
      by apply leb_total.
Qed.

Lemma sort_by_sorted l : StronglySorted le (sort_by key leb l).
Proof.
  induction l as [|x l IH]; [constructor|].
  unfold sort_by in *. simpl. by apply insert_by_sorted.
Qed.
End PySortFacts.

Lemma sorted_before {A} (R : A → A → Prop) (x y : A) (l : list A) :
  StronglySorted R l → before x y l → R x y.
Proof.
  intros Hs (l1 & l2 & l3 & ->).
  apply StronglySorted_app_1_r, StronglySorted_cons in Hs as [Hx _].
  rewrite Forall_forall in Hx. apply Hx. set_solver.
Qed.

Lemma StronglySorted_mono {A} (R S : A → A → Prop) (l : list A) :
  (∀ x y, R x y → S x y) → StronglySorted R l → StronglySorted S l.
Proof.
  intros HRS. induction 1 as [|x l _ IH Hx]; constructor; [done|].
  eapply Forall_impl; eauto.
Qed.

(** ** The order of tuples [(rank, name)] *)

Lemma key_leb_le a b : key_leb a b = true ↔ key_le a b.
Proof.
  unfold key_leb, key_le, String.le.
  rewrite orb_true_iff, andb_true_iff, Z.ltb_lt, Z.eqb_eq.
  by rewrite Is_true_true.
Qed.

Lemma key_leb_total a b : key_leb a b = false → key_leb b a = true.
Proof.
  intros Hab. apply key_leb_le.
  assert (¬ key_le a b) as Hn by (rewrite <-key_leb_le; congruence).
  unfold key_le in *.
  destruct (Z.lt_trichotomy a.1 b.1) as [?|[?|?]]; [tauto| |tauto].
  right. split; [done|].
  destruct (total String.le a.2 b.2); [tauto|done].
Qed.

Lemma key_leb_trans a b c :
  key_leb a b = true → key_leb b c = true → key_leb a c = true.
Proof.
  rewrite !key_leb_le. unfold key_le.
  intros [?|[? Hab]] [?|[? Hbc]]; try (left; lia).
  right. split; [lia|]. by etrans.
Qed.

Lemma default_order_sorted srcs :
  StronglySorted (λ x y, key_le (sort_key x) (sort_key y)) (default_order srcs).
Proof.
  eapply StronglySorted_mono;
    [|apply (sort_by_sorted sort_key key_leb key_leb_total key_leb_trans)].
  intros x y. simpl. apply key_leb_le.
Qed.

(** ** Strings *)

Lemma lower_app a b : PyStr.lower (a +:+ b) = PyStr.lower a +:+ PyStr.lower b.
Proof.
  induction a as [|c a IH]; [done|].
  change (String (PyStr.lower_char c) (PyStr.lower (a +:+ b))
          = String (PyStr.lower_char c) (PyStr.lower a +:+ PyStr.lower b)).
  by rewrite IH.
Qed.

Lemma prefix_app_r k : ∀ n b, String.prefix k n = true → String.prefix k (n +:+ b) = true.
Proof.
  induction k as [|x k IH]; intros n b.
  - intros _. by destruct (n +:+ b).
  - destruct n as [|y n]; [done|].
    change (String y n +:+ b) with (String y (n +:+ b)). simpl.
    destruct (Ascii.ascii_dec x y); [apply IH|done].
Qed.

Lemma contains_cons k y n :
  PyStr.contains k (String y n) = String.prefix k (String y n) || PyStr.contains k n.
Proof. reflexivity. Qed.

Lemma contains_app_r k n b :
  PyStr.contains k n = true → PyStr.contains k (n +:+ b) = true.
Proof.
  induction n as [|y n IH].
  - destruct k; [by destruct b|done].
  - change (String y n +:+ b) with (String y (n +:+ b)).
    rewrite !contains_cons. intros [Hp|Hc]%orb_true_iff.
    + apply (prefix_app_r _ _ b) in Hp.
      change (String y n +:+ b) with (String y (n +:+ b)) in Hp.
      by rewrite Hp.
    + rewrite (IH Hc). apply orb_true_r.
Qed.

Lemma contains_app_l k a n :
  PyStr.contains k n = true → PyStr.contains k (a +:+ n) = true.
Proof.
  intros Hk. induction a as [|x a IH]; [done|].
  change (String x a +:+ n) with (String x (a +:+ n)).
  rewrite contains_cons, IH. apply orb_true_r.
Qed.

(** The base name is what is left of the path after a directory part. *)
Lemma basename_suffix p : ∃ d, p = d +:+ PyPath.basename p.
Proof.
  induction p as [|c p [d IH]]; [by exists ""|]. simpl.
  destruct (PyPath.has_char PyPath.sep p).
  - exists (String c d). change (String c p = String c (d +:+ PyPath.basename p)).
    by rewrite <-IH.
  - destruct (Ascii.eqb c PyPath.sep).
    + by exists (String c "").
    + by exists "".
Qed.

Lemma dir_part_basename p : p = PyPath.dir_part p +:+ PyPath.basename p.
Proof.
  induction p as [|c p IH]; [done|]. simpl.
  destruct (PyPath.has_char PyPath.sep p).
  - change (String c p = String c (PyPath.dir_part p +:+ PyPath.basename p)).
    by rewrite <-IH.
  - by destruct (Ascii.eqb c PyPath.sep).
Qed.

Lemma lower_char_sep c :
  Ascii.eqb (PyStr.lower_char c) PyPath.sep = Ascii.eqb c PyPath.sep.
Proof. by destruct c as [[] [] [] [] [] [] [] []]. Qed.

Lemma has_sep_lower p :
  PyPath.has_char PyPath.sep (PyStr.lower p) = PyPath.has_char PyPath.sep p.
Proof. induction p as [|c p IH]; simpl; [done|]. by rewrite lower_char_sep, IH. Qed.

(** Lower-casing leaves the separators where they are, so it commutes with
    taking the base name and the directory part. *)
Lemma basename_lower p : PyPath.basename (PyStr.lower p) = PyStr.lower (PyPath.basename p).
Proof.
  induction p as [|c p IH]; simpl; [done|].
  rewrite has_sep_lower, lower_char_sep.
  destruct (PyPath.has_char PyPath.sep p); [done|].
  by destruct (Ascii.eqb c PyPath.sep).
Qed.

Lemma dir_part_lower p : PyPath.dir_part (PyStr.lower p) = PyStr.lower (PyPath.dir_part p).
Proof.
  induction p as [|c p IH]; simpl; [done|].
  rewrite has_sep_lower, lower_char_sep.
  destruct (PyPath.has_char PyPath.sep p); simpl; [by rewrite IH|].
  destruct (Ascii.eqb c PyPath.sep) eqn:Hc; simpl; [|done].
  apply Ascii.eqb_eq in Hc as ->. done.
Qed.

(** A word without separator that starts a path with directories lies in
    the directory part. *)
Lemma prefix_dir_part k : ∀ p,
  PyPath.has_char PyPath.sep k = false →
  PyPath.has_char PyPath.sep p = true →
  String.prefix k p = true → String.prefix k (PyPath.dir_part p) = true.
Proof.
  induction k as [|x k IH]; intros p Hk Hp Hpre; [by destruct (PyPath.dir_part p)|].
  destruct p as [|c p]; [done|]. simpl in Hk, Hp, Hpre |- *.
  apply orb_false_iff in Hk as [Hx Hk].
  destruct (Ascii.ascii_dec x c) as [<-|]; [|done].
  rewrite Hx in Hp. simpl in Hp. rewrite Hp. simpl.
  destruct (Ascii.ascii_dec x x); [|done]. by apply IH.
Qed.

(** A word without separator that occurs in a path occurs in its directory
    part or in its base name. *)
Lemma contains_dir_split k p :
  PyPath.has_char PyPath.sep k = false →
  PyStr.contains k p = true →
  PyStr.contains k (PyPath.dir_part p) = true
  ∨ PyStr.contains k (PyPath.basename p) = true.
Proof.
  intros Hk. induction p as [|c p IH]; [by right|].
  rewrite contains_cons. simpl PyPath.dir_part. simpl PyPath.basename.
  destruct (PyPath.has_char PyPath.sep p) eqn:Hp.
  - intros [Hpre|Hc]%orb_true_iff.
    + left. rewrite contains_cons.
      apply (prefix_dir_part k (String c p)) in Hpre; [|done|simpl; by rewrite Hp, orb_true_r].
      simpl in Hpre. rewrite Hp in Hpre. by rewrite Hpre.
    + destruct (IH Hc) as [Hd|Hb]; [left|by right].
      rewrite contains_cons, Hd. apply orb_true_r.
  - destruct (Ascii.eqb c PyPath.sep) eqn:Hsep; [|by right].
    intros [Hpre|Hc]%orb_true_iff; [|by right].
    destruct k as [|x k]; [right; by destruct p|].
    simpl in Hk, Hpre. apply orb_false_iff in Hk as [Hx _].
    destruct (Ascii.ascii_dec x c) as [<-|]; [congruence|done].
Qed.

(** ** Keyword rank *)

(** The loop of [keyword_rank] computes the least of the start value and
    the priorities of the entries whose keyword occurs in [n]. *)
Lemma rank_in_spec table n r0 :
  rank_in table n r0 ≤ r0
  ∧ (∀ e, e ∈ table → PyStr.contains e.1 n = true → rank_in table n r0 ≤ e.2)
  ∧ (rank_in table n r0 = r0
     ∨ ∃ e, e ∈ table ∧ PyStr.contains e.1 n = true ∧ rank_in table n r0 = e.2).
Proof.
  revert r0. induction table as [|e table IH]; intros r0; unfold rank_in in *; simpl.
  - split; [lia|]. split; [|by left]. intros e He. by apply elem_of_nil in He.
  - destruct (IH (rank_step n r0 e)) as (Hle & Hall & Hex).
    assert (rank_step n r0 e ≤ r0) as Hstep.
    { unfold rank_step. destruct (PyStr.contains e.1 n); lia. }
    split; [lia|]. split.
    + intros e' [->|He']%elem_of_cons Hc; [|by apply Hall].
      assert (rank_step n r0 e ≤ e.2); [|lia].
      unfold rank_step. rewrite Hc. lia.
    + destruct Hex as [Heq|(e' & He' & Hc & Heq)].
      * assert (rank_step n r0 e = r0
                ∨ PyStr.contains e.1 n = true ∧ rank_step n r0 e = e.2) as [Hs|[Hc Hs]].
        { unfold rank_step. destruct (PyStr.contains e.1 n); [|by left].
          destruct (Z.min_spec r0 e.2) as [[_ ->]|[_ ->]]; [by left|by right]. }
        -- left. by rewrite Heq.
        -- right. exists e. split; [by left|]. split; [done|]. by rewrite Heq.
      * right. exists e'. split; [by right|done].
Qed.

Lemma order_priorities : Forall (λ e : string * Z, 0 ≤ e.2 < 50) order.
Proof. unfold order. repeat constructor; simpl; lia. Qed.

Lemma keyword_rank_bounds x : 0 ≤ keyword_rank x ≤ 50.
Proof.
  unfold keyword_rank.
  destruct (rank_in_spec order (PyStr.lower x) 50) as (Hle & _ & [->|(e & He & _ & ->)]);
    [lia|].
  pose proof order_priorities as Hp. rewrite Forall_forall in Hp.
  specialize (Hp e He). lia.
Qed.

(** A path whose lower-cased form holds "exterior" has rank 0. *)
Lemma keyword_rank_exterior x :
  PyStr.contains "exterior" (PyStr.lower x) = true → keyword_rank x = 0.
Proof.
  intros Hc. pose proof (keyword_rank_bounds x) as Hb.
  destruct (rank_in_spec order (PyStr.lower x) 50) as (_ & Hall & _).
  fold (keyword_rank x) in Hall.
  assert (keyword_rank x ≤ 0); [|lia].
  apply (Hall ("exterior", 0)); [|done]. unfold order. by left.
Qed.

(** Without "exterior" the rank is at least 1. *)
Lemma keyword_rank_not_exterior x :
  PyStr.contains "exterior" (PyStr.lower x) = false → 1 ≤ keyword_rank x.
Proof.
  intros Hc. unfold keyword_rank.
  destruct (rank_in_spec order (PyStr.lower x) 50) as (_ & _ & [->|(e & He & Hm & ->)]);
    [lia|].
  unfold order in He.
  repeat (apply elem_of_cons in He as [->|He]; [simpl in *; try lia; congruence|]).
  by apply elem_of_nil in He.
Qed.

Lemma rank_in_mono table n1 n2 : ∀ r1 r2,
  (∀ k, PyStr.contains k n1 = true → PyStr.contains k n2 = true) →
  r2 ≤ r1 → rank_in table n2 r2 ≤ rank_in table n1 r1.
Proof.
  induction table as [|e table IH]; intros r1 r2 Hsub Hr; unfold rank_in in *; simpl;
    [done|].
  apply IH; [done|]. unfold rank_step.
  destruct (PyStr.contains e.1 n1) eqn:H1.
  - rewrite (Hsub _ H1). lia.
  - destruct (PyStr.contains e.1 n2); lia.
Qed.

Lemma rank_in_ext table n1 n2 : ∀ r,
  (∀ e, e ∈ table → PyStr.contains e.1 n1 = PyStr.contains e.1 n2) →
  rank_in table n1 r = rank_in table n2 r.
Proof.
  induction table as [|e table IH]; intros r Hext; unfold rank_in in *; simpl; [done|].
  unfold rank_step at 2 4. rewrite (Hext e) by (by left).
  apply IH. intros e' He'. apply Hext. by right.
Qed.

Lemma order_keywords_no_sep :
  Forall (λ e : string * Z, PyPath.has_char PyPath.sep e.1 = false) order.
Proof. unfold order. by repeat constructor. Qed.

(** When no keyword occurs in the directory part of a path, the path has
    the rank of its base name. *)
Lemma keyword_rank_of_base_name x :
  (∀ e, e ∈ order → PyStr.contains e.1 (PyStr.lower (PyPath.dir_part x)) = false) →
  keyword_rank x = keyword_rank (PyPath.basename x).
Proof.
  intros Hdir. unfold keyword_rank. apply rank_in_ext. intros e He.
  destruct (PyStr.contains e.1 (PyStr.lower (PyPath.basename x))) eqn:Hb.
  - destruct (basename_suffix x) as [d Hd]. rewrite Hd at 1.
    rewrite lower_app. by apply contains_app_l.
  - destruct (PyStr.contains e.1 (PyStr.lower x)) eqn:Hx; [|done].
    pose proof order_keywords_no_sep as Hsep. rewrite Forall_forall in Hsep.
    apply contains_dir_split in Hx; [|by apply Hsep].
    rewrite dir_part_lower, basename_lower in Hx.
    destruct Hx as [Hx|Hx]; [|congruence].
    rewrite (Hdir e He) in Hx. done.
Qed.

(** C2, as stated, fails where it takes the rank from the image's file
    name: [main] ranks the path under which the image was discovered, so a
    keyword in a directory counts. For "lake_out/extracted/IMG_1.jpg" no
    keyword occurs in the base name "IMG_1.jpg", yet the rank in the key is
    10, not 50, because of "lake" in the output directory. *)
Lemma rank_is_not_of_the_file_name :
  ¬ (∀ x : string,
       filter (λ e : string * Z,
                 PyStr.contains e.1 (PyStr.lower (PyPath.basename x)) = true) order = [] →
       (sort_key x).1 = 50).
Proof.
  intros H. specialize (H "lake_out/extracted/IMG_1.jpg").
  assert ((sort_key "lake_out/extracted/IMG_1.jpg").1 = 10) as H10
    by (vm_compute; reflexivity).
  rewrite H in H10; [done|]. vm_compute. reflexivity.
Qed.

(** C2, amended. The default ordering of [main] sorts the discovered images
    ascending by the key [(keyword_rank(x), os.path.basename(x))], where [x]
    is the path under which the image was discovered, directories included.
    The rank is computed on the lower-cased path from the fixed table
    exterior=0, front=1, aerial=1, living=2, fireplace=3, kitchen=4,
    dining=5, bedroom=6, bath=7, deck=8, dock=9, lake=10, twilight=11,
    local=12: it is the least priority among the entries whose keyword occurs
    anywhere in the path, and 50 when none does. It is the rank of the base
    file name whenever no keyword occurs in the directory part of the path. *)
Theorem default_order_key (srcs : list string) (x : string) :
  let matching :=
    filter (λ e : string * Z, PyStr.contains e.1 (PyStr.lower x) = true)
      [ ("exterior", 0); ("front", 1); ("aerial", 1); ("living", 2);
        ("fireplace", 3); ("kitchen", 4); ("dining", 5); ("bedroom", 6);
        ("bath", 7); ("deck", 8); ("dock", 9); ("lake", 10);
        ("twilight", 11); ("local", 12) ] in
  default_order srcs ≡ₚ srcs
  ∧ StronglySorted (λ a b, key_le (sort_key a) (sort_key b)) (default_order srcs)
  ∧ sort_key x = (keyword_rank x, PyPath.basename x)
  ∧ (matching = [] → keyword_rank x = 50)
  ∧ (matching ≠ [] →
       keyword_rank x ∈ matching.*2 ∧ ∀ p, p ∈ matching.*2 → keyword_rank x ≤ p)
  ∧ (filter (λ e : string * Z,
               PyStr.contains e.1 (PyStr.lower (PyPath.dir_part x)) = true) order = [] →
       x = PyPath.dir_part x +:+ PyPath.basename x
       ∧ keyword_rank x = keyword_rank (PyPath.basename x)).
Proof.
  intros matching. fold order in matching.
  split; [apply sort_by_perm|]. split; [apply default_order_sorted|].
  split; [done|].
  destruct (rank_in_spec order (PyStr.lower x) 50) as (_ & Hall & Hex).
  fold (keyword_rank x) in Hall, Hex.
  assert (∀ p, p ∈ matching.*2 → keyword_rank x ≤ p) as Hmin.
  { intros p (e & -> & [Hc He]%list_elem_of_filter)%list_elem_of_fmap. by apply Hall. }
  split; [|split].
  - intros Hnil. destruct Hex as [->|(e & He & Hc & _)]; [done|].
    assert (e ∈ matching) as Hin by (by apply list_elem_of_filter).
    rewrite Hnil in Hin. by apply elem_of_nil in Hin.
  - intros Hne. split; [|done].
    destruct Hex as [H50|(e & He & Hc & ->)].
    + destruct matching as [|e m] eqn:Hm; [done|].
      assert (e ∈ filter (λ e : string * Z, PyStr.contains e.1 (PyStr.lower x) = true) order)
        as [Hc He]%list_elem_of_filter by (fold matching; rewrite Hm; by left).
      pose proof order_priorities as Hp. rewrite Forall_forall in Hp.
      specialize (Hp e He). specialize (Hall e He Hc). lia.
    + apply list_elem_of_fmap. exists e. split; [done|]. by apply list_elem_of_filter.
  - intros Hdir. split; [apply dir_part_basename|].
    apply keyword_rank_of_base_name. intros e He.
    destruct (PyStr.contains e.1 (PyStr.lower (PyPath.dir_part x))) eqn:Hc; [|done].
    assert (e ∈ filter (λ e : string * Z,
                          PyStr.contains e.1 (PyStr.lower (PyPath.dir_part x)) = true) order)
      as Hin by (by apply list_elem_of_filter).
    rewrite Hdir in Hin. by apply elem_of_nil in Hin.
Qed.

Lemma default_order_key_witness :
  "out/extracted/Kitchen.jpg" = "out/extracted/" +:+ "Kitchen.jpg"
  ∧ keyword_rank "out/extracted/Kitchen.jpg" = keyword_rank "Kitchen.jpg".
Proof.
  pose proof (default_order_key [] "out/extracted/Kitchen.jpg") as H.
  cbv zeta in H. destruct H as (_ & _ & _ & _ & _ & H).
  apply H. vm_compute. reflexivity.
Defined.

(** A path whose lower-cased form holds "exterior" is never behind one
    that does not hold it. *)
Lemma exterior_path_first (srcs : list string) (k e : string) :
  PyStr.contains "exterior" (PyStr.lower e) = true →
  PyStr.contains "exterior" (PyStr.lower k) = false →
  ¬ before k e (default_order srcs).
Proof.
  intros He Hk Hbefore.
  apply (sorted_before _ _ _ _ (default_order_sorted srcs)) in Hbefore.
  apply keyword_rank_exterior in He. apply keyword_rank_not_exterior in Hk.
  unfold key_le, sort_key in Hbefore. simpl in Hbefore. lia.
Qed.

(** C7, as stated, fails: a file name that holds both keywords has rank 0
    too, and among equal ranks the base name decides. The file
    "a_kitchen_exterior.jpg" holds "kitchen" and sorts before
    "exterior.jpg", which holds "exterior". *)
Lemma kitchen_may_precede_exterior :
  ¬ (∀ (srcs : list string) (k e : string),
       k ∈ srcs → e ∈ srcs →
       PyStr.contains "kitchen" (PyStr.lower (PyPath.basename k)) = true →
       PyStr.contains "exterior" (PyStr.lower (PyPath.basename e)) = true →
       ¬ before k e (default_order srcs)).
Proof.
  intros H.
  apply (H ["a_kitchen_exterior.jpg"; "exterior.jpg"]
           "a_kitchen_exterior.jpg" "exterior.jpg");
    [set_solver|set_solver|reflexivity|reflexivity|].
  by exists [], [], [].
Qed.

(** Keeping "exterior" out of the kitchen file's own name is not enough:
    the rank is taken from the whole path. Under the output directory
    "exterior_out" every image has rank 0, and "Kitchen.jpg" sorts before
    "Porch_exterior.jpg". *)
Lemma kitchen_under_exterior_directory :
  ¬ (∀ (srcs : list string) (k e : string),
       k ∈ srcs → e ∈ srcs →
       PyStr.contains "kitchen" (PyStr.lower (PyPath.basename k)) = true →
       PyStr.contains "exterior" (PyStr.lower (PyPath.basename e)) = true →
       PyStr.contains "exterior" (PyStr.lower (PyPath.basename k)) = false →
       ¬ before k e (default_order srcs)).
Proof.
  intros H.
  apply (H ["exterior_out/extracted/Kitchen.jpg"; "exterior_out/extracted/Porch_exterior.jpg"]
           "exterior_out/extracted/Kitchen.jpg" "exterior_out/extracted/Porch_exterior.jpg");
    [set_solver|set_solver|reflexivity|reflexivity|reflexivity|].
  by exists [], [], [].
Qed.

(** C7, amended. Under the default ordering, a file whose base name holds
    "kitchen" never stands before a file whose base name holds "exterior",
    provided "exterior" occurs nowhere in the discovered path of the kitchen
    file: neither in its base name nor in a directory above it (all
    compared without regard to case). *)
Theorem kitchen_never_precedes_exterior (srcs : list string) (k e : string) :
  PyStr.contains "kitchen" (PyStr.lower (PyPath.basename k)) = true →
  PyStr.contains "exterior" (PyStr.lower (PyPath.basename e)) = true →
  PyStr.contains "exterior" (PyStr.lower k) = false →
  ¬ before k e (default_order srcs).
Proof.
  intros _ He Hk. apply exterior_path_first; [|done].
  destruct (basename_suffix e) as [d Hd]. rewrite Hd, lower_app.
  by apply contains_app_l.
Qed.

Lemma kitchen_never_precedes_exterior_witness :
  ¬ before "out/extracted/Kitchen.jpg" "out/extracted/Exterior_Front.jpg"
      (default_order ["out/extracted/Kitchen.jpg"; "out/extracted/Exterior_Front.jpg"]).
Proof. apply kitchen_never_precedes_exterior; reflexivity. Defined.

(** ** The explicit order *)

Lemma filter_ext_in {A} (P Q : A → Prop) `{∀ x, Decision (P x)} `{∀ x, Decision (Q x)}
    (l : list A) :
  (∀ x, x ∈ l → P x ↔ Q x) → filter P l = filter Q l.
Proof.
  induction l as [|x l IH]; intros HPQ; [done|].
  rewrite !filter_cons.
  rewrite IH by (intros y Hy; apply HPQ; by right).
  destruct (decide (P x)) as [HP|HP], (decide (Q x)) as [HQ|HQ]; try done;
    exfalso; apply (HPQ x) in HP || apply (HPQ x) in HQ; try done; by left.
Qed.

(** Two tests that exclude each other split a filter. *)
Lemma filter_or_perm {A} (P Q : A → Prop) `{∀ x, Decision (P x)} `{∀ x, Decision (Q x)}
    (l : list A) :
  (∀ x, P x → Q x → False) →
  filter (λ x, P x ∨ Q x) l ≡ₚ filter P l ++ filter Q l.
Proof.
  intros Hdisj. induction l as [|x l IH]; [done|].
  rewrite !filter_cons.
  destruct (decide (P x)) as [HP|HP], (decide (Q x)) as [HQ|HQ].
  - destruct (Hdisj x HP HQ).
  - rewrite decide_True by tauto. simpl. by rewrite IH.
  - rewrite decide_True by tauto. rewrite IH. apply Permutation_middle.
  - rewrite decide_False by tauto. done.
Qed.

Lemma elem_of_listed names srcs s :
  s ∈ listed names srcs ↔ s ∈ srcs ∧ PyPath.basename s ∈ names.
Proof.
  unfold listed. rewrite list_elem_of_bind. split.
  - intros (name & [<- Hs]%list_elem_of_filter & Hname). done.
  - intros [Hs Hname]. exists (PyPath.basename s). split; [|done].
    by apply list_elem_of_filter.
Qed.

Lemma listed_perm names srcs :
  NoDup names →
  listed names srcs ≡ₚ filter (λ s, PyPath.basename s ∈ names) srcs.
Proof.
  induction 1 as [|name names Hname _ IH]; unfold listed in *; simpl.
  - induction srcs as [|s srcs IHs]; [done|].
    rewrite filter_cons. rewrite decide_False; [done|]. apply not_elem_of_nil.
  - rewrite IH.
    rewrite <-(filter_or_perm (λ s, PyPath.basename s = name)
                 (λ s, PyPath.basename s ∈ names)) by (intros s -> ?; done).
    erewrite filter_ext_in; [done|]. intros s _. simpl. rewrite elem_of_cons. done.
Qed.

Lemma remaining_unlisted names srcs :
  filter (λ s, s ∉ listed names srcs) srcs
  = filter (λ s, PyPath.basename s ∉ names) srcs.
Proof.
  apply filter_ext_in. intros s Hs. rewrite elem_of_listed. tauto.
Qed.

(** C1, as stated, fails: a name repeated in the order file lists its
    image twice. *)
Lemma explicit_order_repeats :
  ¬ (∀ names srcs : list string, explicit_order names srcs ≡ₚ srcs).
Proof.
  intros H. specialize (H ["a.jpg"; "a.jpg"] ["x/a.jpg"]).
  apply Permutation_length in H. vm_compute in H. discriminate.
Qed.

(** C1, amended. With an order file whose names are pairwise distinct, the
    final order is the discovered images whose base names are listed, in
    listed order, followed by all other discovered images sorted ascending by
    (keyword rank, base name); it is a permutation of the discovered images,
    and repeats none when these are distinct. *)
Theorem explicit_order_permutation (names srcs : list string) :
  NoDup names →
  let rest :=
    sort_by sort_key key_leb (filter (λ s, PyPath.basename s ∉ names) srcs) in
  explicit_order names srcs
  = (names ≫= λ name, filter (λ s, PyPath.basename s = name) srcs) ++ rest
  ∧ StronglySorted (λ a b, key_le (sort_key a) (sort_key b)) rest
  ∧ explicit_order names srcs ≡ₚ srcs
  ∧ (NoDup srcs → NoDup (explicit_order names srcs)).
Proof.
  intros Hnames rest.
  assert (explicit_order names srcs = listed names srcs ++ rest) as Heq.
  { unfold explicit_order, rest. by rewrite remaining_unlisted. }
  assert (explicit_order names srcs ≡ₚ srcs) as Hperm.
  { rewrite Heq. unfold rest. rewrite sort_by_perm, listed_perm by done.
    apply filter_app_complement. }
  split; [done|]. split; [apply default_order_sorted|]. split; [done|].
  intros Hsrcs. by rewrite Hperm.
Qed.

Lemma explicit_order_permutation_witness :
  explicit_order ["IMG_2.jpg"; "Kitchen.jpg"]
    ["x/Exterior_Front.jpg"; "x/IMG_1.jpg"; "x/IMG_2.jpg"; "x/Kitchen.jpg"]
  ≡ₚ ["x/Exterior_Front.jpg"; "x/IMG_1.jpg"; "x/IMG_2.jpg"; "x/Kitchen.jpg"].
Proof.
  refine (proj1 (proj2 (proj2
            (explicit_order_permutation ["IMG_2.jpg"; "Kitchen.jpg"] _ _)))).
  apply (bool_decide_unpack (NoDup ["IMG_2.jpg"; "Kitchen.jpg"])).
  vm_compute. exact I.
Defined.

(** ** Captions *)


Lemma truthy_true s : PyStr.truthy s = true ↔ s ≠ "".
Proof.
  unfold PyStr.truthy. rewrite negb_true_iff.
  destruct (String.eqb_spec s ""); split; congruence.
Qed.








(** ** Caption derivation on finished captions *)

Lemma has_char_app x s t :
  PyPath.has_char x (s +:+ t) = PyPath.has_char x s || PyPath.has_char x t.
Proof. induction s as [|c s IH]; simpl; [done|]. by rewrite IH, orb_assoc. Qed.

Lemma basename_no_sep p : PyPath.has_char PyPath.sep p = false → PyPath.basename p = p.
Proof.
  destruct p as [|c p]; simpl; [done|].
  intros [Hc Hp]%orb_false_iff. by rewrite Hp, Hc.
Qed.

Lemma rsplit_dot_final c : PyPath.rsplit_dot (c +:+ ".") = Some (c, "").
Proof. induction c as [|x c IH]; simpl; [done|]. by rewrite IH. Qed.

Lemma all_dots_endswith c :
  PyPath.all_dots c = true → c = "" ∨ PyStr.endswith "." c = true.
Proof.
  induction c as [|x c IH]; simpl; [by left|].
  intros [Hx Hc]%andb_true_iff. right.
  apply Ascii.eqb_eq in Hx as ->.
  destruct (IH Hc) as [->|Hend]; [done|].
  rewrite Hend. apply orb_true_r.
Qed.

Lemma sub_runs_no_sep c b :
  PyPath.has_char "_" c = false → PyPath.has_char "-" c = false → sub_runs b c = c.
Proof.
  revert b. induction c as [|x c IH]; intros b; simpl; [done|].
  intros [Hu Hc1]%orb_false_iff [Hh Hc2]%orb_false_iff.
  unfold is_sep_char. rewrite Hu, Hh. simpl. by rewrite IH.
Qed.

(** C6, as stated, fails: "A.." is capitalized and ends with a period,
    and its caption is "A.". *)
Lemma slug_to_caption_drops_period :
  ¬ (∀ s : string,
       PyStr.title s = s → PyStr.endswith "." s = true → slug_to_caption s = s).
Proof.
  intros H. specialize (H "A.." eq_refl eq_refl). vm_compute in H. discriminate.
Qed.

(** C6, amended. [slug_to_caption] returns its input unchanged when the
    input is one period after a capitalized stem that holds no path
    separator, underscore or hyphen, has no blank at either end and does not
    itself end with a period; in particular "Living Room." is its own
    caption. *)
Theorem slug_to_caption_fixed (c : string) :
  PyPath.has_char "/" c = false →
  PyPath.has_char "_" c = false →
  PyPath.has_char "-" c = false →
  PyStr.strip c = c →
  PyStr.title c = c →
  PyStr.endswith "." c = false →
  slug_to_caption (c +:+ ".") = c +:+ ".".
Proof.
  intros Hsep Hu Hh Hstrip Htitle Hend.
  destruct (decide (c = "")) as [->|Hne]; [done|].
  unfold slug_to_caption.
  rewrite basename_no_sep
    by (rewrite has_char_app; unfold PyPath.sep; rewrite Hsep; done).
  unfold PyPath.splitext. rewrite rsplit_dot_final.
  destruct (PyPath.all_dots c) eqn:Hdots.
  { destruct (all_dots_endswith _ Hdots); congruence. }
  simpl. unfold humanize. rewrite sub_runs_no_sep, Hstrip, Htitle by done.
  by rewrite Hend.
Qed.

Lemma slug_to_caption_fixed_witness : slug_to_caption "Living Room." = "Living Room.".
Proof. apply (slug_to_caption_fixed "Living Room"); reflexivity. Defined.

(** ** The watermark *)

(** C4. Whenever [apply_logo_watermark] returns an image, that image has
    the width and the height of the image it was given (in [main], the
    orientation-normalized source) and is in mode RGB, without alpha. *)
Theorem watermark_keeps_size (im logo_im out : image) (opacity : spec_float) :
  apply_logo_watermark im logo_im opacity = Some out →
  width out = width im ∧ height out = height im ∧ mode out = "RGB".
Proof.
  unfold apply_logo_watermark.
  destruct (place_logo _ _) as [[lg dest]|]; simpl; [|done].
  by intros [= <-].
Qed.

Lemma watermark_keeps_size_witness :
  ∃ out,
    apply_logo_watermark
      (exif_transpose {| width := 3000; height := 4000; mode := "RGB"; orientation := 6 |})
      {| width := 800; height := 400; mode := "RGBA"; orientation := 0 |}
      (PyFloat.literal 4 10) = Some out
    ∧ width out = 4000 ∧ height out = 3000 ∧ mode out = "RGB".
Proof.
  eexists. split; [vm_compute; reflexivity|].
  apply (watermark_keeps_size
           (exif_transpose {| width := 3000; height := 4000; mode := "RGB"; orientation := 6 |})
           {| width := 800; height := 400; mode := "RGBA"; orientation := 0 |}
           _ (PyFloat.literal 4 10)).
  vm_compute. reflexivity.
Defined.

(** ** The run *)

Lemma prefix_append a b : String.prefix a (a +:+ b) = true.
Proof.
  induction a as [|x a IH]; simpl; [by destruct b|].
  destruct (Ascii.ascii_dec x x); [done|congruence].
Qed.

Lemma append_assoc a b c : (a +:+ b) +:+ c = a +:+ (b +:+ c).
Proof.
  induction a as [|x a IH]; [done|].
  change (String x ((a +:+ b) +:+ c) = String x (a +:+ (b +:+ c))).
  by rewrite IH.
Qed.

Lemma extract_entries_stdout d entries : ∀ st,
  stdout (foldl (λ st e, extract_entry d e st) st entries) = stdout st.
Proof. induction entries as [|e entries IH]; intros st; simpl; [done|]. by rewrite IH. Qed.

Lemma extract_entries_outside d entries p :
  PyStr.startswith (d +:+ "/") p = false →
  ∀ st, files (foldl (λ st e, extract_entry d e st) st entries) !! p = files st !! p.
Proof.
  intros Hp. induction entries as [|e entries IH]; intros st; simpl; [done|].
  rewrite IH. unfold extract_entry. simpl.
  apply lookup_insert_ne. intros <-.
  unfold PyStr.startswith in Hp.
  rewrite <-append_assoc, prefix_append in Hp. done.
Qed.

(** What the start of [main] leaves behind: files under the extraction
    directory, and nothing on the output stream. *)
Lemma unpack_spec env args st work extract_dir st1 :
  unpack env args st = (inr (work, extract_dir), st1) →
  work = outdir args
  ∧ extract_dir = PyPath.join (outdir args) "extracted"
  ∧ stdout st1 = stdout st
  ∧ ∀ p, PyStr.startswith (extract_dir +:+ "/") p = false →
         files st1 !! p = files st !! p.
Proof.
  unfold unpack, ensure_dir, extract_zip, bind, gets, modify, lift, ret, raise.
  destruct (bool_decide _); [done|].
  destruct (read_zip env (zip args)) as [[entries []]|]; [done| |done].
  intros [= <- <- <-]. split; [done|]. split; [done|].
  split; [by rewrite extract_entries_stdout|].
  intros p Hp. by rewrite extract_entries_outside.
Qed.

(** C8. If no image is left once the archive is extracted and the
    files are filtered, [main] ends with [SystemExit("No images found in
    ZIP")]: the exit status is not zero, the message goes to the user, and
    nothing was written but the extraction itself: no file outside the
    extraction directory is created or changed, and nothing is printed. *)
Theorem no_images_is_fatal (env : Env) (args : Args) (st st1 : state)
    (work extract_dir : string) :
  unpack env args st = (inr (work, extract_dir), st1) →
  collect_images (os_walk env extract_dir (files st1)) = [] →
  main env args st = (inl (SystemExit "No images found in ZIP"), st1)
  ∧ exit_status (main env args st).1 ≠ 0
  ∧ exit_message (main env args st).1 = Some "No images found in ZIP"
  ∧ stdout st1 = stdout st
  ∧ ∀ p, PyStr.startswith (extract_dir +:+ "/") p = false →
         files st1 !! p = files st !! p.
Proof.
  intros Hunpack Hnone.
  assert (main env args st = (inl (SystemExit "No images found in ZIP"), st1)) as Hmain.
  { unfold main, bind at 1. rewrite Hunpack. unfold bind, gets. simpl.
    by rewrite Hnone. }
  rewrite Hmain. simpl.
  destruct (unpack_spec _ _ _ _ _ _ Hunpack) as (_ & _ & Hout & Hfiles).
  done.
Qed.

Lemma no_images_is_fatal_witness :
  exit_message (main sample_env (sample_args "in/empty.zip") sample_state).1
  = Some "No images found in ZIP".
Proof.
  refine (proj1 (proj2 (proj2
            (no_images_is_fatal sample_env (sample_args "in/empty.zip") sample_state
               (unpack sample_env (sample_args "in/empty.zip") sample_state).2
               "out" "out/extracted" _ _)))).
  - vm_compute. reflexivity.
  - vm_compute. reflexivity.
Defined.

(** The ordering step and the loading of the captions leave the state as
    it is. *)
Lemma order_images_state o srcs st r st' :
  order_images o srcs st = (r, st') → st' = st.
Proof.
  unfold order_images, read_lines, bind, gets, ret, raise.
  destruct (usable st o); [|by intros [= _ <-]].
  destruct (files st !! _) as [[]|]; by intros [= _ <-].
Qed.

Lemma order_images_missing p srcs st :
  path_exists st p = false →
  order_images (Some p) srcs st = order_images None srcs st.
Proof.
  intros Hp. unfold order_images, bind, gets. simpl.
  by rewrite Hp, andb_false_r.
Qed.

Lemma load_captions_missing p st :
  path_exists st p = false →
  load_captions (Some p) st = load_captions None st.
Proof.
  intros Hp. unfold load_captions, bind, gets. simpl.
  by rewrite Hp, andb_false_r.
Qed.

Lemma bind_eq_l {A B} (c1 c2 : M A) (k : A → M B) st :
  c1 st = c2 st → bind c1 k st = bind c2 k st.
Proof. unfold bind. by intros ->. Qed.

Lemma bind_eq_r {A B} (c : M A) (k1 k2 : A → M B) st :
  (∀ a st', c st = (inr a, st') → k1 a st' = k2 a st') →
  bind c k1 st = bind c k2 st.
Proof. unfold bind. intros Hk. destruct (c st) as [[e|a] st']; [done|]. by apply Hk. Qed.

(** C10. When [--order-file] (or [--captions-csv]) names a path that does
    not exist when [main] looks for it, the whole run (its result, the
    files it leaves and what it prints) is the run without that option. *)
Theorem missing_option_file_ignored (env : Env) (args : Args) (st : state) (p : string) :
  (∀ we st1, unpack env args st = (inr we, st1) → path_exists st1 p = false) →
  (order_file args = Some p →
     main env args st = main env (without_order_file args) st)
  ∧ (captions_csv args = Some p →
     main env args st = main env (without_captions_csv args) st).
Proof.
  intros Hmissing. split; intros Hopt.
  - unfold main. apply bind_eq_r. intros we st1 Hunpack.
    specialize (Hmissing _ _ Hunpack).
    apply bind_eq_r. intros srcs st2 [= <- <-].
    destruct (collect_images _) as [|src srcs]; [done|].
    unfold deliver. apply bind_eq_l. rewrite Hopt.
    by apply order_images_missing.
  - unfold main. apply bind_eq_r. intros we st1 Hunpack.
    specialize (Hmissing _ _ Hunpack).
    apply bind_eq_r. intros srcs st2 [= <- <-].
    destruct (collect_images _) as [|src srcs]; [done|].
    unfold deliver. apply bind_eq_r. intros srcs' st2 Horder.
    apply order_images_state in Horder as ->.
    apply bind_eq_l. rewrite Hopt.
    by apply load_captions_missing.
Qed.

Lemma missing_option_file_ignored_witness :
  let args := {|
    zip := "in/photos.zip"; logo := "in/logo.png";
    property_name := "The Landmark"; brand_name := "Red Canoe Lodging";
    brand_email := "info@redcanoelodging.com"; brand_phone := "715-351-9687";
    brand_site := "redcanoelodging.com"; outdir := "out";
    order_file := Some "in/order.txt"; captions_csv := Some "in/captions.csv";
    max_web_width := 2560 |} in
  main sample_env args sample_state = main sample_env (without_order_file args) sample_state.
Proof.
  intros args.
  refine (proj1 (missing_option_file_ignored sample_env args sample_state "in/order.txt" _) _).
  - intros we st1 Hunpack. vm_compute in Hunpack. injection Hunpack as _ <-.
    vm_compute. reflexivity.
  - reflexivity.
Defined.

(** ** Embedding *)

Lemma truthy_empty : PyStr.truthy "" = false.
Proof. reflexivity. Qed.

(** C9. [embed_b64] always returns a string: the base64 text of the JPEG
    (quality 80) of the image shrunk into the [width × width] box when the
    file opens as an image and both steps succeed, and the empty string in
    every other case. When it returns the empty string for a row's thumbnail,
    the table row and the list item carry no [img] tag in the thumbnail
    cell, and an empty logo gives no logo tag. *)
Theorem embed_b64_best_effort (env : Env) (st : state) (path : string) (w : Z) :
  let encoded :=
    match files st !! path with
    | Some (FImage im _) => im' ← thumbnail env im (w, w); jpeg_bytes env im' 80
    | _ => None
    end in
  embed_b64 env st path w = default "" (b64encode env <$> encoded)
  ∧ (encoded = None → embed_b64 env st path w = "")
  ∧ (∀ i thumb room caption,
       embed_b64 env st thumb 150 = "" →
       html_row env st (i, thumb, room, caption)
       = "<tr><td>" +:+ str i +:+ "</td><td>" +:+ "</td><td>" +:+ room
         +:+ "</td><td>" +:+ caption +:+ "</td></tr>"
       ∧ list_item env st (i, thumb, room, caption)
         = "<li><div style='display:flex;gap:10px;align-items:flex-start'><div>"
           +:+ "</div><div><strong>" +:+ str i +:+ ". " +:+ room
           +:+ "</strong><br>" +:+ caption +:+ "</div></div></li>")
  ∧ logo_tag "" = "".
Proof.
  intros encoded.
  assert (embed_b64 env st path w = default "" (b64encode env <$> encoded)) as Heq.
  { unfold embed_b64, encoded.
    destruct (files st !! path) as [[im q| | | | |]|]; simpl; try done.
    destruct (thumbnail env im (w, w)) as [im'|]; simpl; [|done].
    by destruct (jpeg_bytes env im' 80). }
  split; [done|]. split; [by rewrite Heq; intros ->|].
  split; [|done].
  intros i thumb room caption Hempty.
  unfold html_row, list_item. rewrite Hempty.
  unfold thumb_tag, list_thumb_tag. rewrite truthy_empty. done.
Qed.

Lemma embed_b64_best_effort_witness :
  embed_b64 sample_env sample_state "in/logo.png" 200 = ""
  ∧ embed_b64 sample_env sample_state "in/missing.jpg" 150 = "".
Proof.
  split.
  - refine (proj1 (proj2
              (embed_b64_best_effort sample_env sample_state "in/logo.png" 200)) _).
    vm_compute. reflexivity.
  - refine (proj1 (proj2
              (embed_b64_best_effort sample_env sample_state "in/missing.jpg" 150)) _).
    vm_compute. reflexivity.
Defined.

(** ** Float division of integers

    [float(a) / float(b)] is followed through [SpecFloat]: both operands
    are normal, the mantissa quotient has 53 or 54 bits, and rounding to
    nearest never carries the truncated value into the next integer. *)

Lemma digits2_pos_bounds p :
  2 ^ (Z.pos (digits2_pos p) - 1) ≤ Z.pos p < 2 ^ Z.pos (digits2_pos p).
Proof.
  induction p as [p IH|p IH|]; simpl digits2_pos.
  - rewrite Pos2Z.inj_succ.
    replace (Z.succ (Z.pos (digits2_pos p)) - 1) with (Z.succ (Z.pos (digits2_pos p) - 1)) by lia.
    rewrite !Z.pow_succ_r by lia. lia.
  - rewrite Pos2Z.inj_succ.
    replace (Z.succ (Z.pos (digits2_pos p)) - 1) with (Z.succ (Z.pos (digits2_pos p) - 1)) by lia.
    rewrite !Z.pow_succ_r by lia. lia.
  - simpl. lia.
Qed.

Lemma Zdigits2_unique z d :
  2 ^ (d - 1) ≤ z < 2 ^ d → 1 ≤ d → Zdigits2 z = d.
Proof.
  intros [Hlo Hhi] Hd.
  assert (0 < z) as Hz by (pose proof (Z.pow_pos_nonneg 2 (d - 1)); lia).
  destruct z as [|p|p]; try lia. simpl.
  pose proof (digits2_pos_bounds p) as [Hlo' Hhi'].
  set (d' := Z.pos (digits2_pos p)) in *.
  assert (d - 1 < d') by (apply (Z.pow_lt_mono_r_iff 2); lia).
  assert (d' - 1 < d) by (apply (Z.pow_lt_mono_r_iff 2); lia).
  lia.
Qed.

Lemma Zdigits2_bounds z :
  0 < z → 2 ^ (Zdigits2 z - 1) ≤ z < 2 ^ Zdigits2 z ∧ 1 ≤ Zdigits2 z.
Proof.
  destruct z as [|p|p]; try lia. intros _. simpl.
  split; [apply digits2_pos_bounds|lia].
Qed.

Lemma trunc_value_double m e : trunc_value (2 * m) e = trunc_value m (e + 1).
Proof.
  unfold trunc_value.
  destruct (Z.leb_spec 0 e), (Z.leb_spec 0 (e + 1)); try lia.
  - rewrite Z.pow_add_r by lia. lia.
  - assert (e = -1) as -> by lia. simpl. rewrite Z.mul_comm, Z.div_mul by lia. lia.
  - replace (- e) with (Z.succ (- (e + 1))) by lia.
    rewrite Z.pow_succ_r by lia.
    pose proof (Z.pow_pos_nonneg 2 (- (e + 1))).
    rewrite Z.div_mul_cancel_l; lia.
Qed.

Lemma fexp_normal d : -1021 ≤ d → fexp 53 1024 d = d - 53.
Proof. unfold fexp, emin. lia. Qed.

Lemma record_of_loc_m m l : shr_m (shr_record_of_loc m l) = m.
Proof. by destruct l as [|[]]. Qed.

Lemma loc_of_record_of_loc m l : loc_of_shr_record (shr_record_of_loc m l) = l.
Proof. by destruct l as [|[]]. Qed.

Lemma round_nearest_even_cases m l :
  round_nearest_even m l = m ∨ round_nearest_even m l = m + 1.
Proof. destruct l as [|[]]; simpl; try tauto. destruct (Z.even m); tauto. Qed.

Lemma shr_overflow e :
  shr {| shr_m := 2 ^ 53; shr_r := false; shr_s := false |} e 1
  = ({| shr_m := 2 ^ 52; shr_r := false; shr_s := false |}, e + 1).
Proof. reflexivity. Qed.

Lemma shr_one mrs e : shr mrs e 1 = (shr_1 mrs, e + 1).
Proof. reflexivity. Qed.

(** The last step of [binary_round_aux]: a rounded mantissa of 53 bits is
    kept; [2^53] is renormalized. *)
Lemma finish_round M e :
  2 ^ 52 ≤ M ≤ 2 ^ 53 → -1074 ≤ e ≤ 970 →
  PyFloat.to_int
    (let '(mrs, e') := shr_fexp 53 1024 M e loc_Exact in
     match shr_m mrs with
     | 0 => S754_zero false
     | Z.pos m => if e' <=? 1024 - 53 then S754_finite false m e' else S754_infinity false
     | Z.neg _ => S754_nan
     end)
  = Some (trunc_value M e).
Proof.
  intros HM He. unfold shr_fexp.
  destruct (decide (M = 2 ^ 53)) as [->|Hne].
  - rewrite (Zdigits2_unique (2 ^ 53) 54) by lia.
    rewrite fexp_normal by lia.
    replace (54 + e - 53 - e) with 1 by lia.
    change (shr_record_of_loc (2 ^ 53) loc_Exact)
      with {| shr_m := 2 ^ 53; shr_r := false; shr_s := false |}.
    rewrite shr_overflow. cbv beta iota. unfold shr_m.
    change (2 ^ 52) with (Z.pos (2 ^ 52)%positive) at 1. cbv beta iota.
    replace (e + 1 <=? 1024 - 53) with true by lia.
    unfold PyFloat.to_int, cond_Zopp.
    fold (trunc_value (Z.pos (2 ^ 52)) (e + 1)). by rewrite <-trunc_value_double.
  - rewrite (Zdigits2_unique M 53) by lia.
    rewrite fexp_normal by lia.
    replace (53 + e - 53 - e) with 0 by lia. simpl shr. cbv beta iota. unfold shr_m.
    destruct M as [|m|m] eqn:HMeq; try lia.
    replace (e <=? 1024 - 53) with true by lia. done.
Qed.

(** Rounding a mantissa that already has 53 bits leaves it, or the next
    one. *)
Lemma round_aux_exact_digits q e l :
  2 ^ 52 ≤ q < 2 ^ 53 → -1074 ≤ e ≤ 960 →
  PyFloat.to_int (binary_round_aux 53 1024 false q e l)
  = Some (trunc_value (round_nearest_even q l) e).
Proof.
  intros Hq He. unfold binary_round_aux.
  unfold shr_fexp at 1.
  rewrite (Zdigits2_unique q 53) by lia.
  rewrite fexp_normal by lia.
  replace (53 + e - 53 - e) with 0 by lia. simpl shr. cbv beta iota.
  rewrite record_of_loc_m, loc_of_record_of_loc.
  apply finish_round; [|lia].
  destruct (round_nearest_even_cases q l) as [->| ->]; lia.
Qed.

Lemma shr_1_m mrs : 0 ≤ shr_m mrs → shr_m (shr_1 mrs) = shr_m mrs / 2.
Proof.
  destruct mrs as [m r s]. simpl. intros Hm.
  destruct m as [|[p|p|]|p]; try lia; simpl; try done.
  - rewrite Pos2Z.inj_xI. apply (Z.div_unique _ _ _ 1); lia.
  - rewrite Pos2Z.inj_xO. apply (Z.div_unique _ _ _ 0); lia.
Qed.

(** With an even mantissa the bit shifted out is 0 and rounding keeps the
    half. *)
Lemma shr_1_even mrs :
  Z.even (shr_m mrs) = true →
  round_nearest_even (shr_m (shr_1 mrs)) (loc_of_shr_record (shr_1 mrs))
  = shr_m (shr_1 mrs).
Proof.
  destruct mrs as [m r s]. simpl.
  destruct m as [|[p|p|]|[p|p|]]; simpl; try done; by destruct (r || s).
Qed.

(** Rounding a mantissa of 54 bits drops its last bit, then rounds. *)
Lemma round_aux_extra_digit q e l :
  2 ^ 53 ≤ q < 2 ^ 54 → -1074 ≤ e ≤ 960 →
  let mrs := shr_1 (shr_record_of_loc q l) in
  PyFloat.to_int (binary_round_aux 53 1024 false q e l)
  = Some (trunc_value (round_nearest_even (shr_m mrs) (loc_of_shr_record mrs)) (e + 1)).
Proof.
  intros Hq He mrs. unfold binary_round_aux.
  unfold shr_fexp at 1.
  rewrite (Zdigits2_unique q 54) by lia.
  rewrite fexp_normal by lia.
  replace (54 + e - 53 - e) with 1 by lia.
  rewrite shr_one. cbv beta iota. fold mrs.
  assert (shr_m mrs = q / 2) as Hm.
  { unfold mrs. rewrite shr_1_m; rewrite record_of_loc_m; [done|lia]. }
  assert (2 ^ 52 ≤ q / 2 < 2 ^ 53) as Hhalf.
  { split; [apply Z.div_le_lower_bound; lia|apply Z.div_lt_upper_bound; lia]. }
  apply finish_round; [|lia].
  destruct (round_nearest_even_cases (shr_m mrs) (loc_of_shr_record mrs)) as [->| ->]; lia.
Qed.

Lemma round_aux_normal m e :
  2 ^ 52 ≤ Z.pos m < 2 ^ 53 → -1074 ≤ e ≤ 970 →
  binary_round_aux 53 1024 false (Z.pos m) e loc_Exact = S754_finite false m e.
Proof.
  intros Hm He. unfold binary_round_aux, shr_fexp.
  rewrite (Zdigits2_unique (Z.pos m) 53) by lia.
  rewrite fexp_normal by lia.
  replace (53 + e - 53 - e) with 0 by lia. simpl shr. cbv beta iota.
  simpl round_nearest_even.
  rewrite (Zdigits2_unique (Z.pos m) 53) by lia.
  rewrite fexp_normal by lia.
  replace (53 + e - 53 - e) with 0 by lia. simpl shr. cbv beta iota. simpl shr_m.
  by replace (e <=? 1024 - 53) with true by lia.
Qed.

Lemma iter_xO p k : Z.pos (Pos.iter xO p k) = Z.pos p * 2 ^ Z.pos k.
Proof.
  induction k as [|k IH] using Pos.peano_ind.
  - simpl. lia.
  - rewrite Pos.iter_succ, Pos2Z.inj_xO, IH, Pos2Z.inj_succ, Z.pow_succ_r by lia. lia.
Qed.

(** [float(a)] for a positive integer below [2^53]: the mantissa is [a]
    shifted to 53 bits. *)
Lemma of_int_normal a :
  0 < a < 2 ^ 53 →
  ∃ m, PyFloat.of_int a = S754_finite false m (Zdigits2 a - 53)
       ∧ Z.pos m = a * 2 ^ (53 - Zdigits2 a)
       ∧ 2 ^ 52 ≤ Z.pos m < 2 ^ 53.
Proof.
  intros Ha. destruct a as [|p|p]; try lia.
  destruct (Zdigits2_bounds (Z.pos p)) as [Hd Hd1]; [lia|].
  set (d := Zdigits2 (Z.pos p)) in *.
  assert (d ≤ 53) as Hd53.
  { destruct (Z.le_gt_cases d 53) as [|Hgt]; [done|].
    assert (2 ^ 53 ≤ 2 ^ (d - 1)) by (apply Z.pow_le_mono_r; lia). lia. }
  assert (2 ^ 52 ≤ Z.pos p * 2 ^ (53 - d) < 2 ^ 53) as Hm.
  { replace (2 ^ 52) with (2 ^ (d - 1) * 2 ^ (53 - d))
      by (rewrite <-Z.pow_add_r by lia; f_equal; lia).
    replace (2 ^ 53) with (2 ^ d * 2 ^ (53 - d))
      by (rewrite <-Z.pow_add_r by lia; f_equal; lia).
    assert (0 < 2 ^ (53 - d)) by (apply Z.pow_pos_nonneg; lia).
    split; [apply Z.mul_le_mono_nonneg_r; lia|apply Z.mul_lt_mono_pos_r; lia]. }
  unfold PyFloat.of_int, binary_normalize, binary_round, shl_align, PyFloat.prec, PyFloat.emax.
  change (Z.pos (digits2_pos p)) with d.
  rewrite Z.add_0_r, fexp_normal by lia.
  destruct (d - 53 - 0) as [|k|k] eqn:Hk; try lia.
  - exists p. assert (d = 53) as Hd' by lia. rewrite Hd' in *.
    rewrite round_aux_normal; [|simpl in Hm; lia|lia].
    split; [done|]. simpl. lia.
  - exists (Pos.iter xO p k).
    assert (Z.pos (Pos.iter xO p k) = Z.pos p * 2 ^ (53 - d)) as Hiter.
    { rewrite iter_xO. f_equal. f_equal. lia. }
    rewrite round_aux_normal; [|lia|lia]. split; [done|]. split; [done|lia].
Qed.

(** The quotient of two normal floats, truncated: the mantissa quotient
    [q], or a neighbour of it, at the exponent of [q]. *)
Lemma div_to_int m1 e1 m2 e2 :
  2 ^ 52 ≤ Z.pos m1 < 2 ^ 53 → 2 ^ 52 ≤ Z.pos m2 < 2 ^ 53 →
  -52 ≤ e1 ≤ 0 → -52 ≤ e2 ≤ 0 →
  let q := (Z.pos m1 * 2 ^ 53) / Z.pos m2 in
  ∃ x, PyFloat.to_int (SFdiv 53 1024 (S754_finite false m1 e1) (S754_finite false m2 e2))
       = Some (trunc_value x (e1 - e2 - 53))
       ∧ (x = q ∨ x = q + 1 ∨ (Z.odd q = true ∧ x = q - 1)).
Proof.
  intros Hm1 Hm2 He1 He2 q.
  unfold SFdiv, SFdiv_core_binary.
  rewrite (Zdigits2_unique (Z.pos m1) 53), (Zdigits2_unique (Z.pos m2) 53) by lia.
  rewrite fexp_normal by lia.
  replace (Z.min (53 + e1 - (53 + e2) - 53) (e1 - e2)) with (e1 - e2 - 53) by lia.
  replace (e1 - e2 - (e1 - e2 - 53)) with 53 by lia.
  cbv beta iota zeta.
  rewrite Z.shiftl_mul_pow2 by lia.
  pose proof (Z_div_mod_eq_full (Z.pos m1 * 2 ^ 53) (Z.pos m2)) as Hdm.
  pose proof (Z.mod_pos_bound (Z.pos m1 * 2 ^ 53) (Z.pos m2) ltac:(lia)) as Hr.
  unfold Z.div, Z.modulo in Hdm, Hr. unfold q, Z.div.
  destruct (Z.div_eucl (Z.pos m1 * 2 ^ 53) (Z.pos m2)) as [q' r].
  simpl fst in *. simpl snd in *. clear q.
  assert (2 ^ 52 ≤ q' < 2 ^ 54) as Hq by nia.
  set (l := SpecFloat.new_location (Z.pos m2) r).
  destruct (Z.lt_ge_cases q' (2 ^ 53)) as [Hlt|Hge].
  - rewrite round_aux_exact_digits by lia.
    exists (round_nearest_even q' l). split; [done|].
    destruct (round_nearest_even_cases q' l) as [->| ->]; tauto.
  - rewrite round_aux_extra_digit by lia.
    set (mrs := shr_1 (shr_record_of_loc q' l)).
    assert (shr_m mrs = q' / 2) as Hhalf.
    { unfold mrs. rewrite shr_1_m; rewrite record_of_loc_m; [done|lia]. }
    rewrite <-trunc_value_double.
    exists (2 * round_nearest_even (shr_m mrs) (loc_of_shr_record mrs)).
    split; [done|].
    pose proof (Z.div_mod q' 2 ltac:(lia)) as Hq2.
    destruct (Z.even q') eqn:Heven.
    + left. unfold mrs. rewrite shr_1_even by (by rewrite record_of_loc_m).
      fold mrs. rewrite Hhalf.
      rewrite Zmod_even, Heven in Hq2. lia.
    + rewrite Zmod_even, Heven in Hq2.
      assert (Z.odd q' = true) by (by rewrite <-Z.negb_even, Heven).
      destruct (round_nearest_even_cases (shr_m mrs) (loc_of_shr_record mrs)) as [->| ->];
        rewrite Hhalf; [right; right|right; left]; [split; [done|]|]; lia.
Qed.

(** The number theory behind [int(a / b)]: with [a = b * n + rho] scaled
    by [K], the mantissa quotient [q] and its neighbours stay inside the
    block of [n]. *)
Lemma quotient_block a b n m2 K P q :
  0 < b → 0 ≤ n → b * n ≤ a < b * (n + 1) →
  0 < m2 < K → 0 < P → m2 * P = b * K →
  m2 * q ≤ a * K < m2 * (q + 1) →
  n * P ≤ q ∧ q + 1 < (n + 1) * P.
Proof.
  intros Hb Hn Ha Hm2 HP HK Hq. split.
  - assert (m2 * (n * P) < m2 * (q + 1)) by nia. nia.
  - assert (m2 * ((n + 1) * P) = (n + 1) * b * K) as Heq by nia.
    assert ((a + 1) * K ≤ (n + 1) * b * K) by nia.
    assert (m2 * (q + 1) < m2 * ((n + 1) * P) ) by nia.
    assert (m2 * (q + 2) ≤ a * K + 2 * m2) by nia.
    destruct (Z.lt_ge_cases (q + 1) ((n + 1) * P)) as [|Hge]; [done|].
    assert (m2 * ((n + 1) * P) ≤ m2 * (q + 1)) by nia. nia.
Qed.

(** [int(a / b)] is the integer quotient, for operands below [2^53]. *)
Lemma int_truediv_exact a b :
  0 ≤ a < 2 ^ 53 → 0 < b < 2 ^ 53 → PyFloat.int_truediv a b = Some (a / b).
Proof.
  intros Ha Hb. unfold PyFloat.int_truediv, PyFloat.div.
  replace (b =? 0) with false by lia.
  destruct (of_int_normal b Hb) as (m2 & -> & Hm2 & Hm2b).
  destruct (Z.eq_dec a 0) as [->|Hne].
  { simpl. by rewrite Z.div_0_l by lia. }
  destruct (of_int_normal a ltac:(lia)) as (m1 & -> & Hm1 & Hm1b).
  destruct (Zdigits2_bounds a ltac:(lia)) as [Hda Hda1].
  destruct (Zdigits2_bounds b ltac:(lia)) as [Hdb Hdb1].
  set (da := Zdigits2 a) in *. set (db := Zdigits2 b) in *.
  assert (da ≤ 53) as Hda53.
  { destruct (Z.le_gt_cases da 53) as [|Hgt]; [done|].
    assert (2 ^ 53 ≤ 2 ^ (da - 1)) by (apply Z.pow_le_mono_r; lia). lia. }
  assert (db ≤ 53) as Hdb53.
  { destruct (Z.le_gt_cases db 53) as [|Hgt]; [done|].
    assert (2 ^ 53 ≤ 2 ^ (db - 1)) by (apply Z.pow_le_mono_r; lia). lia. }
  unfold PyFloat.prec, PyFloat.emax.
  destruct (div_to_int m1 (da - 53) m2 (db - 53)) as (x & -> & Hx); try lia.
  f_equal. set (q := Z.pos m1 * 2 ^ 53 / Z.pos m2) in *.
  set (s := 53 + db - da).
  unfold trunc_value. replace (0 <=? da - 53 - (db - 53) - 53) with false by lia.
  replace (- (da - 53 - (db - 53) - 53)) with s by lia.
  set (K := 2 ^ (53 - da) * 2 ^ 53).
  assert (0 < 2 ^ (53 - da)) by (apply Z.pow_pos_nonneg; lia).
  assert (0 < 2 ^ s) as HP by (apply Z.pow_pos_nonneg; lia).
  assert (Z.pos m2 * 2 ^ s = b * K) as HK.
  { rewrite Hm2, <-Z.mul_assoc, <-Z.pow_add_r by lia.
    unfold K. rewrite <-Z.pow_add_r by lia. f_equal. f_equal. lia. }
  assert (Z.pos m1 * 2 ^ 53 = a * K) as HN by (rewrite Hm1; unfold K; lia).
  assert (Z.pos m2 < K) by (unfold K; nia).
  pose proof (Z.div_mod a b ltac:(lia)) as Hab.
  pose proof (Z.mod_pos_bound a b ltac:(lia)) as Hrho.
  assert (0 ≤ a / b) as Hn by (apply Z.div_pos; lia).
  assert (Z.pos m2 * q ≤ a * K < Z.pos m2 * (q + 1)) as Hq.
  { rewrite <-HN. unfold q.
    pose proof (Z.div_mod (Z.pos m1 * 2 ^ 53) (Z.pos m2) ltac:(lia)).
    pose proof (Z.mod_pos_bound (Z.pos m1 * 2 ^ 53) (Z.pos m2) ltac:(lia)). lia. }
  destruct (quotient_block a b (a / b) (Z.pos m2) K (2 ^ s) q) as [Hlo Hhi];
    try lia.
  symmetry. apply Z.div_unique with (r := x - a / b * 2 ^ s); [|lia].
  left. destruct Hx as [->|[->|[Hodd ->]]]; try lia.
  apply Z.odd_spec in Hodd as [k Hk].
  assert (2 ^ s = 2 * 2 ^ (s - 1)) as Hs.
  { rewrite <-Z.pow_succ_r by lia. f_equal. lia. }
  set (t := a / b * 2 ^ (s - 1)).
  assert (a / b * 2 ^ s = 2 * t) by (unfold t; lia).
  lia.
Qed.

(** ** The web variant *)

(** C3, as stated, fails on slivers: for a 5000×1 image the scaled height
    is [int(0.512) = 0], and PIL's [resize] rejects an empty size instead
    of scaling. *)
Lemma resize_for_web_sliver :
  ¬ (∀ (im : image) (max_side : Z),
       0 < width im → 0 < height im → 0 < max_side →
       max_side < Z.max (width im) (height im) →
       ∃ out, resize_for_web im max_side = Some out
              ∧ Z.max (width out) (height out) = max_side).
Proof.
  intros H. destruct (H (photo 5000 1) 2560) as (out & Hout & _); simpl; try lia.
  vm_compute in Hout. discriminate.
Qed.

Lemma web_size_exact w h max_side :
  0 < w → 0 < h → 0 < max_side → w * h < 2 ^ 53 → max_side < Z.max w h →
  web_size w h max_side
  = Some (if h <? w then (max_side, h * max_side / w) else (w * max_side / h, max_side)).
Proof.
  intros Hw Hh Hm Hwh Hbig. unfold web_size.
  destruct (Z.ltb_spec h w).
  - rewrite int_truediv_exact; [done|nia|nia].
  - rewrite int_truediv_exact; [done|nia|nia].
Qed.

(** C3, amended. For an image with positive sides (and fewer than [2^53]
    pixels), [resize_for_web] returns its input unchanged whenever both
    sides are at most the maximum; otherwise, provided the proportionally
    scaled shorter side is at least one pixel, it scales down so that the
    longer side equals the maximum and the shorter side is
    [floor(shorter * max / longer)]; when that side would be 0 the resize is
    rejected. No output side ever exceeds the corresponding input side.
    In particular 5000×3000 yields 2560×1536 and 2000×1000 is returned
    as it is. *)
Theorem resize_for_web_scales (im : image) (max_side : Z) :
  0 < width im → 0 < height im → 0 < max_side → width im * height im < 2 ^ 53 →
  let w := width im in
  let h := height im in
  let short := Z.min w h * max_side / Z.max w h in
  (Z.max w h ≤ max_side → resize_for_web im max_side = Some im)
  ∧ (max_side < Z.max w h → 1 ≤ short →
       ∃ out, resize_for_web im max_side = Some out
              ∧ size out = (if h <? w then (max_side, short) else (short, max_side))
              ∧ Z.max (width out) (height out) = max_side)
  ∧ (max_side < Z.max w h → short < 1 → resize_for_web im max_side = None)
  ∧ (∀ out, resize_for_web im max_side = Some out → width out ≤ w ∧ height out ≤ h).
Proof.
  intros Hw Hh Hm Hwh w h short.
  assert (Z.max w h ≤ max_side → resize_for_web im max_side = Some im) as Hfit.
  { intros Hle. unfold resize_for_web, size. fold w h.
    by replace (Z.max w h <=? max_side) with true by lia. }
  assert (max_side < Z.max w h →
          resize_for_web im max_side
          = resize im (if h <? w then (max_side, short) else (short, max_side))) as Hbig.
  { intros Hlt. unfold resize_for_web, size. fold w h.
    replace (Z.max w h <=? max_side) with false by lia.
    rewrite web_size_exact by (unfold w, h in *; lia). simpl.
    f_equal. unfold short. destruct (Z.ltb_spec h w).
    - by rewrite Z.min_r, Z.max_l by lia.
    - by rewrite Z.min_l, Z.max_r by lia. }
  assert (max_side < Z.max w h → 0 ≤ short ≤ max_side ∧ short ≤ Z.min w h) as Hshort.
  { intros Hlt. unfold short. split; [split|].
    - apply Z.div_pos; nia.
    - apply Z.div_le_upper_bound; nia.
    - apply Z.div_le_upper_bound; nia. }
  split; [done|]. split; [|split].
  - intros Hlt Hone. rewrite Hbig by done. destruct (Hshort Hlt) as [[_ Hsm] _].
    unfold resize.
    destruct (Z.ltb_spec h w); simpl;
      (replace (1 <=? max_side) with true by lia);
      (replace (1 <=? short) with true by lia); simpl;
      eexists; (split; [done|]); simpl; (split; [done|]); lia.
  - intros Hlt Hzero. rewrite Hbig by done. unfold resize.
    destruct (h <? w); simpl; (replace (1 <=? short) with false by lia);
      by rewrite ?andb_false_r.
  - intros out Hout.
    destruct (Z.le_gt_cases (Z.max w h) max_side) as [Hle|Hlt].
    + rewrite Hfit in Hout by done. injection Hout as <-. fold w h. lia.
    + rewrite Hbig in Hout by lia. destruct (Hshort ltac:(lia)) as [_ Hmin].
      unfold resize in Hout.
      destruct (Z.ltb_spec h w); simpl in Hout;
        destruct (_ && _); try done; injection Hout as <-; simpl; lia.
Qed.

Lemma resize_for_web_scales_witness :
  size <$> resize_for_web (photo 5000 3000) 2560 = Some (2560, 1536)
  ∧ resize_for_web (photo 2000 1000) 2560 = Some (photo 2000 1000).
Proof.
  split.
  - destruct (proj1 (proj2 (resize_for_web_scales (photo 5000 3000) 2560
                              ltac:(simpl; lia) ltac:(simpl; lia) ltac:(lia)
                              ltac:(simpl; lia)))
                ltac:(simpl; lia) ltac:(vm_compute; discriminate))
      as (out & -> & Hsize & _).
    simpl. f_equal. exact Hsize.
  - apply (resize_for_web_scales (photo 2000 1000) 2560); simpl; lia.
Defined.


(** * Further properties of the pipeline *)

(** ** Keyword rank of a longer name *)

(** X1. Text around a name can only lower its rank: a name never ranks
    higher (later) than a part of it, and in particular a path never ranks
    later than its base name. *)
Theorem keyword_rank_longer_name (a x b p : string) :
  keyword_rank (a +:+ x +:+ b) ≤ keyword_rank x
  ∧ keyword_rank p ≤ keyword_rank (PyPath.basename p).
Proof.
  assert (∀ a x b, keyword_rank (a +:+ x +:+ b) ≤ keyword_rank x) as Hlong.
  { clear. intros a x b. unfold keyword_rank. apply rank_in_mono; [|lia].
    intros k Hk. rewrite !lower_app. by apply contains_app_l, contains_app_r. }
  split; [apply Hlong|].
  destruct (basename_suffix p) as [d Hd].
  rewrite Hd at 1. specialize (Hlong d (PyPath.basename p) "").
  replace (PyPath.basename p +:+ "") with (PyPath.basename p) in Hlong; [done|].
  clear. induction (PyPath.basename p) as [|c s IH]; [done|].
  change (String c s = String c (s +:+ "")). by rewrite <-IH.
Qed.

(** ** Collected images *)

Lemma string_leb_total a b : String.leb a b = false → String.leb b a = true.
Proof.
  intros Hab. destruct (total String.le a b) as [H|H]; unfold String.le in H.
  - rewrite Hab in H. done.
  - by apply Is_true_true.
Qed.

Lemma string_leb_trans a b c :
  String.leb a b = true → String.leb b c = true → String.leb a c = true.
Proof.
  intros Hab Hbc. apply Is_true_true.
  change (String.le a c). transitivity b; unfold String.le; by apply Is_true_true.
Qed.

(** X2. [collect_images] returns exactly the joined paths of the walked
    files whose lower-cased name ends with an image extension and whose name
    does not start with "._", in ascending order of the paths. *)
Theorem collect_images_spec (walk : list (string * list string)) (p : string) :
  (p ∈ collect_images walk ↔
     ∃ d files f, (d, files) ∈ walk ∧ f ∈ files
                  ∧ PyStr.endswith_any IMG_EXTS (PyStr.lower f) = true
                  ∧ PyStr.startswith "._" f = false
                  ∧ p = PyPath.join d f)
  ∧ StronglySorted String.le (collect_images walk).
Proof.
  split.
  - unfold collect_images.
    rewrite (sort_by_perm id String.leb), list_elem_of_bind. split.
    + intros ([d files] & Hp & Hwalk).
      apply list_elem_of_fmap in Hp as (f & -> & [Hf Hin]%list_elem_of_filter).
      unfold is_image_name in Hf. apply andb_true_iff in Hf as [Hext Hdot].
      apply negb_true_iff in Hdot. by exists d, files, f.
    + intros (d & files & f & Hwalk & Hin & Hext & Hdot & ->).
      exists (d, files). split; [|done].
      apply list_elem_of_fmap. exists f. split; [done|].
      apply list_elem_of_filter. split; [|done].
      unfold is_image_name. by rewrite Hext, Hdot.
  - eapply StronglySorted_mono;
      [|apply (sort_by_sorted id String.leb string_leb_total string_leb_trans)].
    intros x y Hxy. unfold String.le. by apply Is_true_true.
Qed.

(** ** Stability and uniqueness of the default order *)

Lemma before_cons {A} (a x y : A) l : before x y l → before x y (a :: l).
Proof. intros (l1 & l2 & l3 & ->). by exists (a :: l1), l2, l3. Qed.

Lemma before_head {A} (x y : A) l : y ∈ l → before x y (x :: l).
Proof.
  intros (l2 & l3 & ->)%list_elem_of_split. by exists [], l2, l3.
Qed.

Section Stability.
Context {A K : Type} (key : A → K) (leb : K → K → bool).

Lemma insert_by_before a x y l :
  before x y l → before x y (insert_by key leb a l).
Proof.
  induction l as [|z l IH]; intros Hb.
  - destruct Hb as ([|? ?] & ? & ? & ?); done.
  - simpl. destruct (leb (key a) (key z)); [by apply before_cons|].
    destruct Hb as ([|z' l1] & l2 & l3 & Heq); simplify_eq/=.
    + apply before_head. rewrite (insert_by_perm key leb). set_solver.
    + apply before_cons, IH. by exists l1, l2, l3.
Qed.

Lemma insert_by_first x y l :
  y ∈ l → leb (key x) (key y) = true → before x y (insert_by key leb x l).
Proof.
  induction l as [|z l IH]; intros Hy Hxy; [by apply elem_of_nil in Hy|].
  simpl. destruct (leb (key x) (key z)) eqn:Hxz; [by apply before_head|].
  apply elem_of_cons in Hy as [->|Hy]; [congruence|].
  apply before_cons, IH; done.
Qed.

Lemma sort_by_stable x y l :
  before x y l → leb (key x) (key y) = true → before x y (sort_by key leb l).
Proof.
  intros (l1 & l2 & l3 & ->) Hxy.
  induction l1 as [|a l1 IH]; unfold sort_by in *; simpl.
  - apply insert_by_first; [|done].
    fold (sort_by key leb (l2 ++ y :: l3)). rewrite (sort_by_perm key leb). set_solver.
  - by apply insert_by_before.
Qed.
End Stability.

(** X3. The default order is stable: when [x] was discovered before [y]
    and the key of [x] is not greater than the key of [y] (in particular
    when both have the same rank and base name), [x] still comes before
    [y]. *)
Theorem default_order_stable (srcs : list string) (x y : string) :
  before x y srcs →
  key_le (sort_key x) (sort_key y) →
  before x y (default_order srcs).
Proof.
  intros Hb Hle. apply sort_by_stable; [done|]. by apply key_leb_le.
Qed.

Lemma default_order_stable_witness :
  before "a/Deck.jpg" "b/Deck.jpg" (default_order ["a/Deck.jpg"; "Kitchen.jpg"; "b/Deck.jpg"]).
Proof.
  apply default_order_stable.
  - by exists [], ["Kitchen.jpg"], [].
  - apply key_leb_le. vm_compute. reflexivity.
Defined.

Lemma NoDup_fmap_eq {A B} (f : A → B) (l : list A) x y :
  NoDup (f <$> l) → x ∈ l → y ∈ l → f x = f y → x = y.
Proof.
  induction l as [|a l IH]; simpl; [by intros _ ?%elem_of_nil|].
  intros [Ha Hl]%NoDup_cons [->|Hx]%elem_of_cons [->|Hy]%elem_of_cons Hf; try done.
  - destruct Ha. rewrite Hf. by apply list_elem_of_fmap_2.
  - destruct Ha. rewrite <-Hf. by apply list_elem_of_fmap_2.
  - by apply IH.
Qed.

(** X4. When the discovered images have pairwise distinct base names, the
    default order does not depend on the order of discovery. *)
Theorem default_order_unique (srcs1 srcs2 : list string) :
  srcs1 ≡ₚ srcs2 →
  NoDup (PyPath.basename <$> srcs1) →
  default_order srcs1 = default_order srcs2.
Proof.
  intros Hperm Hnd.
  apply (StronglySorted_unique_strong (λ a b, key_le (sort_key a) (sort_key b)));
    [|apply default_order_sorted|apply default_order_sorted|].
  - intros x1 x2 Hx1 Hx2 H12 H21.
    unfold default_order in Hx1, Hx2.
    rewrite (sort_by_perm sort_key key_leb) in Hx1, Hx2.
    rewrite <-?Hperm in Hx2.
    apply (NoDup_fmap_eq PyPath.basename srcs1); try done.
    unfold key_le, sort_key in H12, H21. simpl in *.
    destruct H12 as [?|[? H12]], H21 as [?|[? H21]]; try lia.
    by apply (anti_symm String.le).
  - unfold default_order. by rewrite !(sort_by_perm sort_key key_leb).
Qed.

Lemma default_order_unique_witness :
  default_order ["x/Kitchen.jpg"; "x/Deck.jpg"; "x/Exterior.jpg"]
  = default_order ["x/Exterior.jpg"; "x/Kitchen.jpg"; "x/Deck.jpg"].
Proof.
  apply default_order_unique.
  - apply (bool_decide_unpack _). vm_compute. exact I.
  - apply (bool_decide_unpack _). vm_compute. exact I.
Defined.

(** ** Order files that name nothing *)

Lemma filter_all {A} (P : A → Prop) `{∀ x, Decision (P x)} (l : list A) :
  (∀ x, x ∈ l → P x) → filter P l = l.
Proof.
  induction l as [|x l IH]; intros HP; [done|].
  rewrite filter_cons, decide_True by (apply HP; by left).
  f_equal. apply IH. intros y Hy. apply HP. by right.
Qed.

Lemma filter_none {A} (P : A → Prop) `{∀ x, Decision (P x)} (l : list A) :
  (∀ x, x ∈ l → ¬ P x) → filter P l = [].
Proof.
  induction l as [|x l IH]; intros HP; [done|].
  rewrite filter_cons, decide_False by (apply HP; by left).
  apply IH. intros y Hy. apply HP. by right.
Qed.

(** X5. Names of the order file that match no discovered image are
    ignored: when no listed name is the base name of an image the result is
    the default order. An order file of blank lines is such a file. *)
Theorem explicit_order_no_match (names lines srcs : list string) :
  ((∀ s, s ∈ srcs → PyPath.basename s ∉ names) →
     explicit_order names srcs = default_order srcs)
  ∧ ((∀ ln, ln ∈ lines → PyStr.strip ln = "") →
     explicit_order (read_names lines) srcs = default_order srcs).
Proof.
  assert (∀ names, (∀ s, s ∈ srcs → PyPath.basename s ∉ names) →
                   explicit_order names srcs = default_order srcs) as Hno.
  { clear. intros names Hno. unfold explicit_order. rewrite remaining_unlisted.
    assert (listed names srcs = []) as ->.
    { destruct (listed names srcs) as [|s l] eqn:Hl; [done|].
      assert (s ∈ listed names srcs) as [Hs Hn]%elem_of_listed by (rewrite Hl; by left).
      by destruct (Hno s Hs). }
    by rewrite filter_all. }
  split; [apply Hno|].
  intros Hblank. apply Hno. intros s _.
  assert (read_names lines = []) as ->; [|apply not_elem_of_nil].
  unfold read_names. apply filter_none.
  intros nm (ln & -> & Hln)%list_elem_of_fmap. by rewrite (Hblank ln Hln).
Qed.

Lemma explicit_order_no_match_witness :
  explicit_order (read_names ["   "; ""]) ["x/Kitchen.jpg"; "x/Exterior.jpg"]
  = default_order ["x/Kitchen.jpg"; "x/Exterior.jpg"].
Proof.
  refine (proj2 (explicit_order_no_match [] ["   "; ""] _) _).
  intros ln Hln.
  apply elem_of_cons in Hln as [->|Hln]; [reflexivity|].
  apply elem_of_cons in Hln as [->|Hln]; [reflexivity|].
  by apply elem_of_nil in Hln.
Defined.

(** ** Derived captions *)

Lemma basename_has_no_sep p : PyPath.has_char PyPath.sep (PyPath.basename p) = false.
Proof.
  induction p as [|c p IH]; [done|]. simpl.
  destruct (PyPath.has_char PyPath.sep p) eqn:Hp; [done|].
  destruct (Ascii.eqb c PyPath.sep) eqn:Hc; [done|].
  simpl. by rewrite Hc, Hp.
Qed.

(** X6. The derived caption depends on the base name only: directories in
    front of it change nothing. *)
Theorem slug_to_caption_basename (p : string) :
  slug_to_caption p = slug_to_caption (PyPath.basename p).
Proof.
  unfold slug_to_caption.
  by rewrite (basename_no_sep (PyPath.basename p)) by apply basename_has_no_sep.
Qed.

Lemma endswith_app suf s : PyStr.endswith suf (s +:+ suf) = true.
Proof.
  induction s as [|c s IH].
  - destruct suf; simpl; [done|]. by rewrite Ascii.eqb_refl, String.eqb_refl.
  - change (String c s +:+ suf) with (String c (s +:+ suf)).
    simpl. rewrite IH. apply orb_true_r.
Qed.

Lemma lower_char_not_sep c :
  is_sep_char (PyStr.lower_char c) = is_sep_char c.
Proof. destruct c as [[] [] [] [] [] [] [] []]; reflexivity. Qed.

Lemma upper_char_not_sep c :
  is_sep_char (PyStr.upper_char c) = is_sep_char c.
Proof. destruct c as [[] [] [] [] [] [] [] []]; reflexivity. Qed.

Lemma has_sep_char_app s t : has_sep_char (s +:+ t) = has_sep_char s || has_sep_char t.
Proof.
  induction s as [|c s IH]; [done|].
  change (String c s +:+ t) with (String c (s +:+ t)). simpl.
  by rewrite IH, orb_assoc.
Qed.

Lemma title_from_no_sep b s : has_sep_char (PyStr.title_from b s) = has_sep_char s.
Proof.
  revert b. induction s as [|c s IH]; intros b; [done|]. simpl.
  rewrite IH. by destruct b; rewrite ?lower_char_not_sep, ?upper_char_not_sep.
Qed.

Lemma lstrip_no_sep s : has_sep_char s = false → has_sep_char (PyStr.lstrip s) = false.
Proof.
  induction s as [|c s IH]; [done|]. simpl.
  intros [Hc Hs]%orb_false_iff. destruct (PyStr.is_space c); [by apply IH|].
  simpl. by rewrite Hc, Hs.
Qed.

Lemma rstrip_no_sep s : has_sep_char s = false → has_sep_char (PyStr.rstrip s) = false.
Proof.
  induction s as [|c s IH]; [done|]. simpl.
  intros [Hc Hs]%orb_false_iff. specialize (IH Hs).
  destruct (PyStr.rstrip s) as [|c' r].
  - destruct (PyStr.is_space c); [done|]. simpl. by rewrite Hc.
  - change (has_sep_char (String c (String c' r)) = false).
    simpl in *. by rewrite Hc, IH.
Qed.

Lemma sub_runs_no_sep_left b s : has_sep_char (sub_runs b s) = false.
Proof.
  revert b. induction s as [|c s IH]; intros b; [done|]. simpl.
  destruct (is_sep_char c) eqn:Hc.
  - destruct b; [apply IH|]. simpl. apply IH.
  - simpl. by rewrite Hc, IH.
Qed.

(** X7. Every derived caption ends with a period and holds neither an
    underscore nor a hyphen, whatever the file name. *)
Theorem slug_to_caption_shape (nm : string) :
  PyStr.endswith "." (slug_to_caption nm) = true
  ∧ PyPath.has_char "_" (slug_to_caption nm) = false
  ∧ PyPath.has_char "-" (slug_to_caption nm) = false.
Proof.
  assert (has_sep_char (slug_to_caption nm) = false) as Hno.
  { unfold slug_to_caption, humanize.
    set (stem := (PyPath.splitext (PyPath.basename nm)).1).
    assert (has_sep_char (PyStr.title (PyStr.strip (sub_runs false stem))) = false) as Hcap.
    { unfold PyStr.title, PyStr.strip. rewrite title_from_no_sep.
      apply rstrip_no_sep, lstrip_no_sep, sub_runs_no_sep_left. }
    destruct (PyStr.endswith "." _); simpl; [done|].
    by rewrite has_sep_char_app, Hcap. }
  split.
  - unfold slug_to_caption. destruct (PyStr.endswith "." (humanize _)) eqn:Hend; simpl;
      [done|apply endswith_app].
  - clear -Hno. induction (slug_to_caption nm) as [|c s IH]; [done|].
    simpl in *. apply orb_false_iff in Hno as [Hc Hs].
    unfold is_sep_char in Hc. apply orb_false_iff in Hc as [Hu Hh].
    destruct (IH Hs) as [-> ->]. by rewrite Hu, Hh.
Qed.

(** ** The caption table *)

Lemma caption_step_fails caps row :
  caption_step caps row = None ↔ row.1 = None ∨ row.2 = None.
Proof.
  destruct row as [[fn|] [tx|]]; unfold caption_step; simpl; split;
    try done; try tauto; by intros [|].
Qed.

(** The loop over the rows stops with an exception exactly when some row
    has no value for the file name or for the caption. *)
Lemma load_rows_fails (rows : list csv_row) :
  load_captions_csv rows = None ↔ ∃ row, row ∈ rows ∧ (row.1 = None ∨ row.2 = None).
Proof.
  unfold load_captions_csv. generalize (∅ : gmap string string).
  induction rows as [|row rows IH]; intros caps; simpl.
  - split; [done|]. intros (row & Hin & _). by apply elem_of_nil in Hin.
  - destruct (caption_step caps row) as [caps'|] eqn:Hstep; simpl.
    + rewrite IH. split.
      * intros (r & Hin & Hr). exists r. split; [by right|done].
      * intros (r & [->|Hin]%elem_of_cons & Hr); [|by exists r].
        apply (caption_step_fails caps) in Hr. congruence.
    + split; [|done]. intros _. exists row. split; [by left|].
      by apply (caption_step_fails caps).
Qed.

(** X8. [load_captions_csv(path)] raises in two cases and no other: the
    file at [path] cannot be opened, decoded and parsed as a table, or some
    row the reader yields has no value ([None]) for the column [filename] or
    the column [caption], the row being shorter than the header. Blank
    fields, a header without these columns and values in further columns do
    not make it raise. Either way it leaves the files as they are. *)
Theorem load_captions_csv_fails (path : string) (st : state) :
  (load_captions_csv_file path st).2 = st
  ∧ ((∃ e, (load_captions_csv_file path st).1 = inl e)
     ↔ (∀ rows, files st !! path ≠ Some (FCsv rows))
       ∨ (∃ rows row, files st !! path = Some (FCsv rows)
                      ∧ row ∈ rows ∧ (row.1 = None ∨ row.2 = None))).
Proof.
  unfold load_captions_csv_file, read_csv, bind, gets, ret, raise, lift.
  destruct (files st !! path) as [f|] eqn:Hf.
  - destruct f as [im q|lines|rows|content|data h t|];
      try (split; [done|]; split; [by left|by eexists]).
    destruct (load_captions_csv rows) as [caps|] eqn:Hload.
    + split; [done|]. split; [by intros [e [=]]|].
      intros [Hno|(rows' & row & [= <-] & Hrow)]; [by destruct (Hno rows)|].
      assert (load_captions_csv rows = None) as Hnone
        by (apply load_rows_fails; by exists row).
      congruence.
    + split; [done|]. split; [|by eexists]. intros _. right.
      apply load_rows_fails in Hload as (row & Hin & Hrow). by exists rows, row.
  - split; [done|]. split; [by left|by eexists].
Qed.

Lemma load_rows_app rows1 rows2 : ∀ caps,
  load_rows caps (rows1 ++ rows2) = caps' ← load_rows caps rows1; load_rows caps' rows2.
Proof.
  induction rows1 as [|row rows1 IH]; intros caps; simpl; [done|].
  destruct (caption_step caps row); simpl; [apply IH|done].
Qed.

(** X9. A later row wins: after a table that ends with a row naming a
    file with a non-blank caption, the caption of that file is the trimmed
    caption of that last row, whatever earlier rows said. *)
Theorem load_captions_csv_last_row (rows : list csv_row) (fn tx : string)
    (caps : gmap string string) :
  load_captions_csv (rows ++ [(Some fn, Some tx)]) = Some caps →
  PyStr.strip fn ≠ "" → PyStr.strip tx ≠ "" →
  resolve_caption caps (PyStr.strip fn) = PyStr.strip tx.
Proof.
  unfold load_captions_csv. rewrite load_rows_app.
  destruct (load_rows ∅ rows) as [caps0|]; simpl; [|done].
  unfold caption_step. simpl. intros [= <-] Hfn Htx.
  rewrite (proj2 (truthy_true _) Hfn), (proj2 (truthy_true _) Htx). simpl.
  unfold resolve_caption. by rewrite lookup_insert_eq.
Qed.

Lemma load_captions_csv_last_row_witness :
  resolve_caption
    {[ "Deck.jpg" := "Sunset deck" ]} "Deck.jpg" = "Sunset deck".
Proof.
  apply (load_captions_csv_last_row
           [(Some "Deck.jpg", Some "Old deck")] " Deck.jpg" "Sunset deck ").
  - vm_compute. reflexivity.
  - vm_compute. discriminate.
  - vm_compute. discriminate.
Defined.

(** ** Images too small to mark, and the web variant applied twice *)

Lemma int_mul_tenth_small w :
  0 ≤ w < 10 → PyFloat.int_mul w (PyFloat.literal 10 100) = Some 0.
Proof.
  intros Hw.
  assert (w = 0 ∨ w = 1 ∨ w = 2 ∨ w = 3 ∨ w = 4 ∨ w = 5 ∨ w = 6 ∨ w = 7 ∨ w = 8 ∨ w = 9)
    as Hcases by lia.
  repeat (destruct Hcases as [->|Hcases]; [vm_compute; reflexivity|]).
  subst. vm_compute. reflexivity.
Qed.

(** X10. The watermark step raises instead of returning an image when the
    base image is narrower than ten pixels (the logo would be scaled to
    width 0) and when the logo has width 0 (division by zero). *)
Theorem watermark_rejects_small (im logo_im : image) (opacity : spec_float) :
  0 ≤ width im < 10 ∨ width logo_im = 0 →
  apply_logo_watermark im logo_im opacity = None.
Proof.
  intros Hsmall. unfold apply_logo_watermark, place_logo. simpl.
  destruct Hsmall as [Hw|Hlogo].
  - rewrite int_mul_tenth_small by done. simpl.
    destruct (width logo_im =? 0); [done|].
    by destruct (PyFloat.int_mul (height logo_im) _).
  - destruct (PyFloat.int_mul (width im) (PyFloat.literal 10 100)); simpl; [|done].
    by rewrite Hlogo.
Qed.

Lemma watermark_rejects_small_witness :
  apply_logo_watermark (photo 9 600) (photo 800 400) (PyFloat.literal 4 10) = None
  ∧ apply_logo_watermark (photo 4000 3000) (photo 0 0) (PyFloat.literal 4 10) = None.
Proof.
  split.
  - apply watermark_rejects_small. left. simpl. lia.
  - apply watermark_rejects_small. right. reflexivity.
Defined.

Lemma resize_for_web_large im max_side :
  0 < width im → 0 < height im → 0 < max_side → width im * height im < 2 ^ 53 →
  max_side < Z.max (width im) (height im) →
  resize_for_web im max_side
  = resize im (if height im <? width im
               then (max_side, height im * max_side / width im)
               else (width im * max_side / height im, max_side)).
Proof.
  intros Hw Hh Hm Hwh Hlt. unfold resize_for_web, size.
  replace (Z.max (width im) (height im) <=? max_side) with false by lia.
  by rewrite web_size_exact by lia.
Qed.

(** X11. The web variant of a web variant is the same image: once
    [resize_for_web] has returned an image, applying it again with the same
    maximum passes that image through. *)
Theorem resize_for_web_twice (im out : image) (max_side : Z) :
  0 < width im → 0 < height im → 0 < max_side → width im * height im < 2 ^ 53 →
  resize_for_web im max_side = Some out →
  resize_for_web out max_side = Some out.
Proof.
  intros Hw Hh Hm Hwh Hout.
  assert (Z.max (width out) (height out) ≤ max_side) as Hfit.
  { destruct (Z.le_gt_cases (Z.max (width im) (height im)) max_side) as [Hle|Hlt].
    - unfold resize_for_web, size in Hout.
      replace (Z.max (width im) (height im) <=? max_side) with true in Hout by lia.
      by injection Hout as <-.
    - rewrite resize_for_web_large in Hout by lia. unfold resize in Hout.
      destruct (Z.ltb_spec (height im) (width im)); simpl in Hout;
        destruct (_ && _); try done; injection Hout as <-; simpl.
      + assert (height im * max_side / width im ≤ max_side); [|lia].
        apply Z.div_le_upper_bound; nia.
      + assert (width im * max_side / height im ≤ max_side); [|lia].
        apply Z.div_le_upper_bound; nia. }
  unfold resize_for_web, size.
  by replace (Z.max (width out) (height out) <=? max_side) with true by lia.
Qed.

Lemma resize_for_web_twice_witness :
  resize_for_web (photo 2560 1536) 2560 = Some (photo 2560 1536).
Proof.
  apply (resize_for_web_twice (photo 5000 3000)); simpl; try lia.
  vm_compute. reflexivity.
Defined.

(** ** What a run prints *)

Lemma quiet_ret {A} (a : A) : quiet (ret a).
Proof. by intros st r st' [= <- <-]. Qed.

Lemma quiet_raise {A} e : quiet (@raise A e).
Proof. by intros st r st' [= <- <-]. Qed.

Lemma quiet_gets {A} (f : state → A) : quiet (gets f).
Proof. by intros st r st' [= <- <-]. Qed.

Lemma quiet_lift {A} nm (o : option A) : quiet (lift nm o).
Proof. destruct o; [apply quiet_ret|apply quiet_raise]. Qed.

Lemma quiet_modify f : (∀ st, stdout (f st) = stdout st) → quiet (modify f).
Proof. intros Hf st r st' [= <- <-]. apply Hf. Qed.

Lemma quiet_bind {A B} (c : M A) (k : A → M B) :
  quiet c → (∀ a, quiet (k a)) → quiet (bind c k).
Proof.
  intros Hc Hk st r st'. unfold bind.
  destruct (c st) as [[e|a] st1] eqn:Hcst.
  - intros [= <- <-]. by apply (Hc _ _ _ Hcst).
  - intros Hkst. rewrite (Hk _ _ _ _ Hkst). by apply (Hc _ _ _ Hcst).
Qed.

Lemma says_raise {A} msg e : says msg (@raise A e).
Proof. intros st r st' [= <- <-]. by rewrite app_nil_r. Qed.


Create HintDb quiet.
#[local] Hint Resolve quiet_ret quiet_raise quiet_gets quiet_lift : quiet.

Ltac quiet_step :=
  first
    [ apply quiet_bind; [|intros ?]
    | apply quiet_modify; intros ?; reflexivity
    | match goal with
      | |- quiet (match ?x with _ => _ end) => destruct x
      | |- quiet (if ?b then _ else _) => destruct b
      end
    | solve [auto with quiet] ].

Lemma quiet_ensure_dir path : quiet (ensure_dir path).
Proof. unfold ensure_dir. repeat quiet_step. Qed.

Lemma quiet_extract_zip env zip_path out_dir : quiet (extract_zip env zip_path out_dir).
Proof.
  unfold extract_zip. repeat quiet_step.
  apply quiet_modify. intros st. apply extract_entries_stdout.
Qed.

Lemma quiet_image_open path : quiet (image_open path).
Proof. unfold image_open. repeat quiet_step. Qed.

Lemma quiet_save im path q : quiet (save im path q).
Proof. unfold save. repeat quiet_step. Qed.

Lemma quiet_order_images o srcs : quiet (order_images o srcs).
Proof. unfold order_images, read_lines. repeat quiet_step. Qed.

Lemma quiet_load_captions c : quiet (load_captions c).
Proof. unfold load_captions, load_captions_csv_file, read_csv. repeat quiet_step. Qed.

#[local] Hint Resolve quiet_ensure_dir quiet_extract_zip quiet_image_open quiet_save
  quiet_order_images quiet_load_captions : quiet.

Lemma quiet_process_image env logo_im fd wd td caps m i src :
  quiet (process_image env logo_im fd wd td caps m i src).
Proof. unfold process_image. repeat quiet_step. Qed.

Lemma quiet_process_all env logo_im fd wd td caps m srcs : ∀ i,
  quiet (process_all env logo_im fd wd td caps m i srcs).
Proof.
  induction srcs as [|src srcs IH]; intros i; simpl; [apply quiet_ret|].
  apply quiet_bind; [apply quiet_process_image|intros r].
  apply quiet_bind; [apply IH|intros rs]. apply quiet_ret.
Qed.

Lemma quiet_make_pdf path rows brand logo_path : quiet (make_pdf path rows brand logo_path).
Proof. unfold make_pdf. repeat quiet_step. Qed.

Lemma quiet_make_html env path rows brand logo_path :
  quiet (make_html env path rows brand logo_path).
Proof. unfold make_html. repeat quiet_step. Qed.

Lemma quiet_make_list_html env path rows brand logo_path :
  quiet (make_list_html env path rows brand logo_path).
Proof. unfold make_list_html. repeat quiet_step. Qed.

#[local] Hint Resolve quiet_process_all quiet_make_pdf quiet_make_html
  quiet_make_list_html : quiet.




(** ** Runs that stop early *)




Lemma load_captions_state c st r st' : load_captions c st = (r, st') → st' = st.
Proof.
  unfold load_captions, load_captions_csv_file, read_csv, bind, gets, ret, raise, lift.
  destruct (usable st c); [|by intros [= _ <-]].
  destruct (files st !! _) as [[]|]; try by intros [= _ <-].
  destruct (load_captions_csv rows); by intros [= _ <-].
Qed.

(** X14. When the logo does not open as an image, [main] ends with an
    exception before any output directory, image or document exists: the
    state is the one the extraction left. *)
Theorem main_unreadable_logo (env : Env) (args : Args) (st st1 : state)
    (work extract_dir : string) :
  unpack env args st = (inr (work, extract_dir), st1) →
  (∀ im q, files st1 !! logo args ≠ Some (FImage im q)) →
  ∃ e, main env args st = (inl e, st1).
Proof.
  intros Hunpack Hlogo. unfold main, bind at 1. rewrite Hunpack.
  unfold bind at 1, gets at 1. simpl.
  destruct (collect_images _) as [|src srcs]; [by eexists|].
  unfold deliver, bind at 1.
  destruct (order_images _ _ st1) as [[e|srcs'] st2] eqn:Horder;
    apply order_images_state in Horder as ->; [by eexists|].
  unfold bind at 1.
  destruct (load_captions _ st1) as [[e|caps] st2] eqn:Hcaps;
    apply load_captions_state in Hcaps as ->; [by eexists|].
  unfold bind at 1, image_open, bind at 1, gets, raise.
  destruct (files st1 !! logo args) as [[im q| | | | |]|] eqn:Hf;
    try by eexists.
  by destruct (Hlogo im q).
Qed.

Lemma main_unreadable_logo_witness :
  ∃ e, main sample_env (sample_args "in/photos.zip")
         {| files := ∅; dirs := ∅; stdout := [] |}
       = (inl e, (unpack sample_env (sample_args "in/photos.zip")
                    {| files := ∅; dirs := ∅; stdout := [] |}).2).
Proof.
  apply (main_unreadable_logo sample_env (sample_args "in/photos.zip") _ _
           "out" "out/extracted").
  - vm_compute. reflexivity.
  - intros im q. vm_compute. discriminate.
Defined.

(** ** The rows of the documents *)

Lemma process_image_row env logo_im fd wd td caps m i src st r st' :
  process_image env logo_im fd wd td caps m i src st = (inr r, st') →
  r = (i, PyPath.join td ("thumb_" +:+ pad2 i +:+ ".jpg"),
       humanize (PyPath.splitext (PyPath.basename src)).1,
       resolve_caption caps (PyPath.basename src)).
Proof.
  unfold process_image, image_open, save, bind, gets, modify, lift, ret, raise.
  destruct (files st !! src) as [[im q| | | | |]|]; try done.
  destruct (apply_logo_watermark _ _ _) as [wm|]; [|done].
  destruct (resize_for_web wm m) as [web|]; [|done].
  destruct (thumbnail env wm (600, 400)) as [t|]; [|done].
  by intros [= <- _].
Qed.

Lemma rows_for_index td caps srcs : ∀ i k r,
  rows_for td caps i srcs !! k = Some r → r.1.1.1 = i + Z.of_nat k.
Proof.
  induction srcs as [|src srcs IH]; intros i k r; [done|].
  destruct k as [|k]; simpl.
  - intros [= <-]. simpl. lia.
  - intros Hk. rewrite (IH _ _ _ Hk). lia.
Qed.

(** X15. When the loop over the images completes, its rows are determined
    by the file names alone: one row per image, in processing order,
    numbered contiguously from the start index (1 in [main]), with the
    thumbnail path [thumb_NN.jpg], the humanized stem as room label and the
    resolved caption. *)
Theorem process_all_rows (env : Env) (logo_im : image) (fd wd td : string)
    (caps : gmap string string) (m i : Z) (srcs : list string)
    (st st' : state) (rows : list row) :
  process_all env logo_im fd wd td caps m i srcs st = (inr rows, st') →
  rows = rows_for td caps i srcs
  ∧ length rows = length srcs
  ∧ ∀ k r, rows !! k = Some r → r.1.1.1 = i + Z.of_nat k.
Proof.
  intros Hrun.
  assert (rows = rows_for td caps i srcs) as ->.
  { revert i st st' rows Hrun.
    induction srcs as [|src srcs IH]; intros i st st' rows; simpl.
    - by intros [= <- _].
    - unfold bind at 1.
      destruct (process_image _ _ _ _ _ _ _ _ _ st) as [[e|r] st1] eqn:Himg; [done|].
      apply process_image_row in Himg as ->.
      unfold bind at 1.
      destruct (process_all _ _ _ _ _ _ _ _ _ st1) as [[e|rs] st2] eqn:Hrest; [done|].
      apply IH in Hrest as ->. by intros [= <- _]. }
  split; [done|]. split.
  - clear. revert i. induction srcs as [|src srcs IH]; intros i; simpl; [done|].
    by rewrite IH.
  - apply rows_for_index.
Qed.

Lemma process_all_rows_witness :
  ∃ rows st',
    process_all sample_env (photo 800 400) "full" "web" "thumbs" ∅ 2560 1
      ["in/logo.png"; "in/logo.png"] sample_state = (inr rows, st')
    ∧ rows = [ (1, "thumbs/thumb_01.jpg", "Logo", "Logo.");
               (2, "thumbs/thumb_02.jpg", "Logo", "Logo.") ].
Proof.
  eexists _, _. split; [vm_compute; reflexivity|].
  refine (proj1 (process_all_rows sample_env (photo 800 400) "full" "web" "thumbs" ∅ 2560 1
                   ["in/logo.png"; "in/logo.png"] sample_state _ _ _)).
  vm_compute. reflexivity.
Defined.

(** ** Numbered file names *)

Lemma pad2_order_check :
  forallb (λ i, forallb (λ j, negb (i <? j) || negb (String.leb (pad2 j) (pad2 i)))
                  (seqZ 0 100))
    (seqZ 0 100) = true.
Proof. vm_compute. reflexivity. Qed.

(** X16. Up to 99 images the two-digit prefixes keep the processing order
    under plain string comparison: a smaller index gives a strictly smaller
    prefix. With a hundredth image this ends: "100" sorts before "99". *)
Theorem pad2_sorts_below_100 (i j : Z) :
  0 ≤ i → i < j → j < 100 →
  String.leb (pad2 i) (pad2 j) = true ∧ pad2 i ≠ pad2 j
  ∧ String.leb (pad2 99) (pad2 100) = false.
Proof.
  intros Hi Hij Hj.
  pose proof pad2_order_check as Hcheck.
  rewrite forallb_forall in Hcheck.
  assert (In i (seqZ 0 100)) as Hin_i by (apply list_elem_of_In, elem_of_seqZ; lia).
  assert (In j (seqZ 0 100)) as Hin_j by (apply list_elem_of_In, elem_of_seqZ; lia).
  specialize (Hcheck i Hin_i). rewrite forallb_forall in Hcheck.
  specialize (Hcheck j Hin_j).
  replace (i <? j) with true in Hcheck by lia. simpl in Hcheck.
  apply negb_true_iff in Hcheck.
  split; [by apply string_leb_total|]. split; [|by vm_compute].
  intros Heq. rewrite Heq in Hcheck.
  assert (String.leb (pad2 j) (pad2 j) = true); [|congruence].
  destruct (String.leb (pad2 j) (pad2 j)) eqn:Hjj; [done|].
  by rewrite (string_leb_total _ _ Hjj) in Hjj.
Qed.

Lemma pad2_sorts_below_100_witness :
  String.leb (pad2 9) (pad2 10) = true ∧ pad2 9 ≠ pad2 10
  ∧ String.leb (pad2 99) (pad2 100) = false.
Proof. apply pad2_sorts_below_100; lia. Defined.

(** ** Options given as the empty string *)

(** X17. An option given as the empty string counts as not given:
    [--order-file ""] and [--captions-csv ""] run as without the option,
    whatever the file system holds. *)
Theorem empty_option_ignored (env : Env) (args : Args) (st : state) :
  (order_file args = Some "" →
     main env args st = main env (without_order_file args) st)
  ∧ (captions_csv args = Some "" →
     main env args st = main env (without_captions_csv args) st).
Proof.
  split; intros Hopt.
  - unfold main. apply bind_eq_r. intros we st1 _.
    apply bind_eq_r. intros srcs st2 [= <- <-].
    destruct (collect_images _) as [|src srcs]; [done|].
    unfold deliver. apply bind_eq_l. by rewrite Hopt.
  - unfold main. apply bind_eq_r. intros we st1 _.
    apply bind_eq_r. intros srcs st2 [= <- <-].
    destruct (collect_images _) as [|src srcs]; [done|].
    unfold deliver. apply bind_eq_r. intros srcs' st2 _.
    apply bind_eq_l. by rewrite Hopt.
Qed.

(** ** The documents of a successful run *)










(** ** Names read from the order file *)

Lemma rstrip_rstrip t : PyStr.rstrip (PyStr.rstrip t) = PyStr.rstrip t.
Proof.
  induction t as [|c t IH]; [done|]. simpl.
  destruct (PyStr.rstrip t) as [|c' r] eqn:Hr.
  - destruct (PyStr.is_space c) eqn:Hc; [done|]. simpl. by rewrite Hc.
  - change (PyStr.rstrip (String c (String c' r)) = String c (String c' r)).
    simpl PyStr.rstrip at 1. simpl in IH. by rewrite IH.
Qed.

Lemma lstrip_rstrip c t :
  PyStr.is_space c = false →
  PyStr.lstrip (PyStr.rstrip (String c t)) = PyStr.rstrip (String c t).
Proof.
  intros Hc. simpl. destruct (PyStr.rstrip t); rewrite ?Hc; simpl; by rewrite Hc.
Qed.

Lemma lstrip_head s :
  PyStr.lstrip s = "" ∨ ∃ c t, PyStr.lstrip s = String c t ∧ PyStr.is_space c = false.
Proof.
  induction s as [|c s IH]; [by left|]. simpl.
  destruct (PyStr.is_space c) eqn:Hc; [done|]. right. by exists c, s.
Qed.

Lemma strip_strip s : PyStr.strip (PyStr.strip s) = PyStr.strip s.
Proof.
  unfold PyStr.strip.
  destruct (lstrip_head s) as [->|(c & t & -> & Hc)]; [done|].
  by rewrite lstrip_rstrip, rstrip_rstrip.
Qed.

(** X19. Every name read from the order file is non-empty and has no
    white space at either end; blank lines give no name. *)
Theorem read_names_clean (lines : list string) (nm : string) :
  nm ∈ read_names lines →
  nm ≠ "" ∧ PyStr.strip nm = nm ∧ ∃ ln, ln ∈ lines ∧ nm = PyStr.strip ln.
Proof.
  unfold read_names. intros [Hnm Hin]%list_elem_of_filter.
  apply list_elem_of_fmap in Hin as (ln & -> & Hln).
  split; [by apply truthy_true|]. split; [apply strip_strip|by exists ln].
Qed.

Lemma read_names_clean_witness :
  PyStr.strip "Kitchen.jpg" = "Kitchen.jpg".
Proof.
  apply (read_names_clean ["  Kitchen.jpg "; "   "; "Deck.jpg"]).
  apply (bool_decide_unpack _). vm_compute. exact I.
Defined.

(** ** The full-resolution file of an image *)

(** X20. When the loop body completes for an image, the source was a
    decodable image and the full-resolution file it wrote (under the
    numbered name, at quality 95) is an RGB image with the size of the
    orientation-normalized source, provided the web and thumbnail files go
    to other paths. *)
Theorem process_image_full_res (env : Env) (logo_im : image) (fd wd td : string)
    (caps : gmap string string) (m i : Z) (src : string) (st st' : state) (r : row) :
  let new_name := pad2 i +:+ "_" +:+ PyPath.basename src in
  let full_path := PyPath.join fd new_name in
  process_image env logo_im fd wd td caps m i src st = (inr r, st') →
  PyPath.join wd new_name ≠ full_path →
  PyPath.join td ("thumb_" +:+ pad2 i +:+ ".jpg") ≠ full_path →
  ∃ im q wm,
    files st !! src = Some (FImage im q)
    ∧ files st' !! full_path = Some (FImage wm (Some 95))
    ∧ size wm = size (exif_transpose im) ∧ mode wm = "RGB".
Proof.
  intros new_name full_path.
  unfold process_image, image_open, save, bind, gets, modify, lift, ret, raise.
  destruct (files st !! src) as [[im q| | | | |]|] eqn:Hsrc; try done.
  destruct (apply_logo_watermark _ _ _) as [wm|] eqn:Hwm; [|done].
  destruct (resize_for_web wm m) as [web|]; [|done].
  destruct (thumbnail env wm (600, 400)) as [t|]; [|done].
  intros [= _ <-] Hweb Hthumb. exists im, q, wm.
  split; [done|]. split.
  - cbn [files write_file]. fold new_name. fold full_path.
    by rewrite !lookup_insert_ne, lookup_insert_eq by done.
  - unfold apply_logo_watermark in Hwm.
    destruct (place_logo _ _) as [[lg dest]|]; [|done].
    by injection Hwm as <-.
Qed.

Lemma process_image_full_res_witness :
  ∃ im q wm,
    files sample_state !! "in/logo.png" = Some (FImage im q)
    ∧ files (process_image sample_env (photo 80 40) "full" "web" "thumbs" ∅ 2560 1
               "in/logo.png" sample_state).2 !! "full/01_logo.png"
      = Some (FImage wm (Some 95))
    ∧ size wm = size (exif_transpose im) ∧ mode wm = "RGB".
Proof.
  refine (process_image_full_res sample_env (photo 80 40) "full" "web" "thumbs" ∅ 2560 1
            "in/logo.png" sample_state _
            (1, "thumbs/thumb_01.jpg", "Logo", "Logo.") _ _ _).
  - vm_compute. reflexivity.
  - vm_compute. discriminate.
  - vm_compute. discriminate.
Defined.
